(** * The functional task scheduler (functional-version/src), embedded in Rocq

    The embedding follows [types.ts], [state.ts], [task-operations.ts] and
    [composition.ts]:

    - a JavaScript string is its sequence of UTF-16 code units;
    - a [Date] is its time value (milliseconds since the epoch, what
      [getTime] and the relational operators on dates read);
    - a priority is a number. The records that hold one and the operations
      that take one from the caller and compare it with 1 and 5 ([createTask],
      [addTask], [updateTask], [updatePriorities]) are written once, over a
      class [Priority] of number representations. It has two instances: the
      integers, the priorities of the data model, on which [Task] and
      [TaskState] and the rest of the module live; and [JS.number], an
      integer or NaN, on which every comparison with NaN is false as it is
      in JavaScript. The lemmas under [Embedding of the integers] show that the
      operations on integers are the operations on [JS.number] at the
      integers;
    - [new Date()] and [randomUUID()] are the two effects of the module.
      They are threaded through a state monad over a [World] that holds the
      wall clock and the identifier source, so that every read of the clock
      the source performs is a read in the model, in the same order;
    - a [throw] is a [Throw] completion, a [Result] is a value;
    - [Array.prototype.sort] is a stable insertion sort: the lemmas of
      section [SortSpec] show it is sorted, a permutation and stable, and
      that these three properties fix the result. *)

From stdpp Require Import base numbers option list sorting gmap strings.

Open Scope Z_scope.

(** ** Strings *)

Module JS.

(** A string value: UTF-16 code units. *)
Abbreviation string := (list N) (only parsing).

(** WhiteSpace and LineTerminator code points of ECMAScript, the ones
    [String.prototype.trim] strips (all of them in the basic plane). *)
Definition isWhiteSpace (c : N) : bool :=
  ((c =? 0x0009) || (c =? 0x000A) || (c =? 0x000B) || (c =? 0x000C)
   || (c =? 0x000D) || (c =? 0x0020) || (c =? 0x00A0) || (c =? 0x1680)
   || ((0x2000 <=? c) && (c <=? 0x200A))
   || (c =? 0x2028) || (c =? 0x2029) || (c =? 0x202F) || (c =? 0x205F)
   || (c =? 0x3000) || (c =? 0xFEFF))%N.

Fixpoint trimStart (s : string) : string :=
  match s with
  | [] => []
  | c :: s' => if isWhiteSpace c then trimStart s' else s
  end.

Definition trimEnd (s : string) : string := reverse (trimStart (reverse s)).

Definition trim (s : string) : string := trimEnd (trimStart s).

(** ToBoolean on a string: only the empty string is falsy. *)
Definition truthy (s : string) : bool :=
  match s with [] => false | _ :: _ => true end.

(** A literal of the source (ASCII), as code units. *)
Fixpoint lit (s : String.string) : string :=
  match s with
  | EmptyString => []
  | String a s' => Ascii.N_of_ascii a :: lit s'
  end.

(** A number value: an integer, or NaN. Fractions and the infinities, which
    the comparisons order against 1 and 5 as they order integers, are left
    out. Every comparison with NaN is false. *)
Inductive number :=
  | Int (z : Z)
  | NaN.

(** [a < b] *)
Definition lt (a b : number) : bool :=
  match a, b with
  | Int x, Int y => x <? y
  | _, _ => false
  end.

(** [a > b] *)
Definition gt (a b : number) : bool :=
  match a, b with
  | Int x, Int y => x >? y
  | _, _ => false
  end.

End JS.

(** ** Priorities *)

(** What the module does with a priority it is handed: compare it with a
    numeric literal. *)
Class Priority (P : Type) := {
  literal : Z → P;
  lessThan : P → P → bool;
  greaterThan : P → P → bool;
}.

(** The integers: the priorities of the data model. *)
#[global] Instance Z_priority : Priority Z :=
  {| literal := λ z, z; lessThan := Z.ltb; greaterThan := Z.gtb |}.

(** The numbers of JavaScript, NaN included. *)
#[global] Instance number_priority : Priority JS.number :=
  {| literal := JS.Int; lessThan := JS.lt; greaterThan := JS.gt |}.

(** ** The two effects: the wall clock and the identifier generator *)

(** A [Date] object is its time value. *)
Abbreviation Date := Z (only parsing).

(** [wallClock n] is what the [n]-th evaluation of [new Date()] yields and
    [uuidSource n] what the [n]-th call of [randomUUID()] yields. *)
Record World := {
  wallClock : nat → Date;
  clockReads : nat;
  uuidSource : nat → JS.string;
  uuidDraws : nat;
}.

Definition M (A : Type) : Type := World → A * World.

#[global] Instance M_ret : MRet M := λ A a w, (a, w).
#[global] Instance M_bind : MBind M := λ A B k m w, let '(a, w') := m w in k a w'.

(** [new Date()] *)
Definition newDate : M Date := λ w,
  (wallClock w (clockReads w),
   {| wallClock := wallClock w; clockReads := S (clockReads w);
      uuidSource := uuidSource w; uuidDraws := uuidDraws w |}).

(** [randomUUID()] *)
Definition randomUUID : M JS.string := λ w,
  (uuidSource w (uuidDraws w),
   {| wallClock := wallClock w; clockReads := clockReads w;
      uuidSource := uuidSource w; uuidDraws := S (uuidDraws w) |}).

(** The array methods that call back into effectful code visit the elements
    in index order. *)
Section ArrayCallbacks.
Context {A B : Type}.

(** [Array.prototype.map] *)
Fixpoint mapA (f : A → M B) (l : list A) : M (list B) :=
  match l with
  | [] => mret []
  | x :: l' => y ← f x; ys ← mapA f l'; mret (y :: ys)
  end.

(** [Array.prototype.filter] *)
Fixpoint filterA (p : A → M bool) (l : list A) : M (list A) :=
  match l with
  | [] => mret []
  | x :: l' => b ← p x; ys ← filterA p l'; mret (if b : bool then x :: ys else ys)
  end.

(** [Array.prototype.reduce] with an initial value *)
Fixpoint reduceA (f : B → A → M B) (l : list A) (acc : B) : M B :=
  match l with
  | [] => mret acc
  | x :: l' => acc' ← f acc x; reduceA f l' acc'
  end.
End ArrayCallbacks.

(** ** [Array.prototype.sort] *)

Section ArraySort.
Context {A : Type} (comparefn : A → A → Z).

(** [x] goes before the first element it does not have to follow. *)
Fixpoint sort_insert (x : A) (l : list A) : list A :=
  match l with
  | [] => [x]
  | y :: l' => if comparefn x y <=? 0 then x :: l else y :: sort_insert x l'
  end.

Definition sort (l : list A) : list A := foldr sort_insert [] l.
End ArraySort.

(** ** types.ts *)

Inductive TaskStatus := Pending | InProgress | Completed.

#[global] Instance TaskStatus_eq_dec : EqDecision TaskStatus.
Proof. solve_decision. Defined.

(** A task whose priority is represented in [P]. *)
Record TaskOf (P : Type) := {
  id : JS.string;
  title : JS.string;
  description : JS.string;
  priority : P;
  status : TaskStatus;
  createdAt : Date;
  deadline : option Date;
  completedAt : option Date;
}.
Arguments id {P} _.
Arguments title {P} _.
Arguments description {P} _.
Arguments priority {P} _.
Arguments status {P} _.
Arguments createdAt {P} _.
Arguments deadline {P} _.
Arguments completedAt {P} _.

Record TaskStateOf (P : Type) := { tasks : list (TaskOf P) }.
Arguments tasks {P} _.

(** The tasks and states of the data model: integer priorities. *)
Abbreviation Task := (TaskOf Z).
Abbreviation TaskState := (TaskStateOf Z).

Record Error := { message : JS.string }.

(** [{ ok: true, value } | { ok: false, error }] *)
Inductive Result (T : Type) :=
  | Ok (value : T)
  | Failure (error : Error).
Arguments Ok {T} value.
Arguments Failure {T} error.

Record TaskStatistics := {
  total : nat;
  pending : nat;
  inProgress : nat;
  completed : nat;
  overdue : nat;
}.

(** A value of type [T | null]. *)
Inductive Nullable (T : Type) :=
  | Null
  | NotNull (v : T).
Arguments Null {T}.
Arguments NotNull {T} v.

(** An optional property is [None] when it is left out (or [undefined]). *)
Module TaskUpdate.
Record tOf (P : Type) := {
  title : option JS.string;
  description : option JS.string;
  priority : option P;
  deadline : option (Nullable Date);
}.
Arguments title {P} _.
Arguments description {P} _.
Arguments priority {P} _.
Arguments deadline {P} _.
Abbreviation t := (tOf Z).
End TaskUpdate.

(** How a call completes: normally, or by a [throw]. *)
Inductive Completion (T : Type) :=
  | Normal (v : T)
  | Throw (e : Error).
Arguments Normal {T} v.
Arguments Throw {T} e.

(** ** state.ts *)

Definition createInitialState {P : Type} : TaskStateOf P := {| tasks := [] |}.

(** ** task-operations.ts *)

(** [a ?? b] where [a] may be left out (or [undefined]). *)
Definition nullish {T : Type} (a : option T) (b : T) : T :=
  match a with
  | Some v => v
  | None => b
  end.

(** [a ?? b] where [a] may be left out, [undefined] or [null], and [b] may
    be [undefined]: both [null] and [undefined] on the left give [b]. *)
Definition nullishOpt {T : Type} (a : option (Nullable T)) (b : option T) : option T :=
  match a with
  | Some (NotNull v) => Some v
  | Some Null => b
  | None => b
  end.

Definition createTask {P : Type} `{Priority P} (title description : JS.string)
    (priority : P) (deadline : option Date) : M (Completion (TaskOf P)) :=
  if lessThan priority (literal 1) || greaterThan priority (literal 5) then
    mret (Throw {| message := JS.lit "Priority must be between 1 and 5" |})
  else if negb (JS.truthy (JS.trim title)) then
    mret (Throw {| message := JS.lit "Title cannot be empty" |})
  else
    uuid ← randomUUID;
    now ← newDate;
    mret (Normal {| id := uuid;
                    title := title;
                    description := description;
                    priority := priority;
                    deadline := deadline;
                    status := Pending;
                    createdAt := now;
                    completedAt := None |}).

Definition addTask {P : Type} `{Priority P} (state : TaskStateOf P)
    (title description : JS.string) (priority : P) (deadline : option Date) :
    M (Completion (TaskStateOf P)) :=
  created ← createTask title description priority deadline;
  mret (match created with
        | Normal task => Normal {| tasks := tasks state ++ [task] |}
        | Throw e => Throw e
        end).

Definition removeTask (state : TaskState) (taskId : JS.string) : TaskState :=
  {| tasks := filter (λ task, id task ≠ taskId) (tasks state) |}.

Definition getTask (state : TaskState) (taskId : JS.string) : Result Task :=
  match List.find (λ task, bool_decide (id task = taskId)) (tasks state) with
  | Some task => Ok task
  | None => Failure {| message := JS.lit "Task not found" |}
  end.

(** The callback that [updateTaskStatus] hands to [map]: the clock is read
    for each task that has the identifier, when the new status is
    [Completed]. *)
Definition setStatus (taskId : JS.string) (newStatus : TaskStatus)
    (task : Task) : M Task :=
  if decide (id task = taskId) then
    completedAt' ← (if decide (newStatus = Completed)
                    then now ← newDate; mret (Some now)
                    else mret (completedAt task));
    mret {| id := id task;
            title := title task;
            description := description task;
            priority := priority task;
            createdAt := createdAt task;
            deadline := deadline task;
            status := newStatus;
            completedAt := completedAt' |}
  else mret task.

Definition updateTaskStatus (state : TaskState) (taskId : JS.string)
    (newStatus : TaskStatus) : M TaskState :=
  tasks' ← mapA (setStatus taskId newStatus) (tasks state);
  mret {| tasks := tasks' |}.

Definition markInProgress (state : TaskState) (taskId : JS.string) : M TaskState :=
  updateTaskStatus state taskId InProgress.

Definition markCompleted (state : TaskState) (taskId : JS.string) : M TaskState :=
  updateTaskStatus state taskId Completed.

Definition updateTask {P : Type} `{Priority P} (state : TaskStateOf P)
    (taskId : JS.string) (taskUpdate : TaskUpdate.tOf P) :
    Result (TaskStateOf P) :=
  let taskExists := existsb (λ t, bool_decide (id t = taskId)) (tasks state) in
  if negb taskExists then
    Failure {| message := JS.lit "Task with id " ++ taskId ++ JS.lit " not found" |}
  else if match TaskUpdate.priority taskUpdate with
          | Some p => lessThan p (literal 1) || greaterThan p (literal 5)
          | None => false
          end then
    Failure {| message := JS.lit "Priority must be between 1 and 5" |}
  else
    let newState :=
      {| tasks := map (λ task,
           if decide (id task = taskId) then
             {| id := id task;
                status := status task;
                createdAt := createdAt task;
                completedAt := completedAt task;
                title := nullish (TaskUpdate.title taskUpdate) (title task);
                description := nullish (TaskUpdate.description taskUpdate) (description task);
                priority := nullish (TaskUpdate.priority taskUpdate) (priority task);
                deadline := nullishOpt (TaskUpdate.deadline taskUpdate) (deadline task) |}
           else task) (tasks state) |} in
    Ok newState.

Definition getAllTasks (state : TaskState) : list Task := tasks state.

Definition getTasksByStatus (state : TaskState) (st : TaskStatus) : list Task :=
  filter (λ task, status task = st) (tasks state).

Definition getPendingTasks (state : TaskState) : list Task :=
  getTasksByStatus state Pending.

Definition getInProgressTasks (state : TaskState) : list Task :=
  getTasksByStatus state InProgress.

Definition getCompletedTasks (state : TaskState) : list Task :=
  getTasksByStatus state Completed.

Definition sortByPriority (tasks : list Task) : list Task :=
  sort (λ a b, priority b - priority a) tasks.

(** [Date.prototype.getTime] *)
Definition getTime (d : Date) : Z := d.

(** [task.deadline!.getTime()]. The source applies it to tasks that passed
    the filter on [deadline !== undefined] only; lemma
    [sortByDeadline_filtered] shows the value at [None] is never used. *)
Definition deadlineTime (dflt : Z) (task : Task) : Z :=
  match deadline task with
  | Some d => getTime d
  | None => dflt
  end.

Definition sortByDeadline (tasks : list Task) : list Task :=
  let tasksWithoutDeadline := filter (λ task, deadline task = None) tasks in
  let tasksWithDeadline := filter (λ task, deadline task ≠ None) tasks in
  let sortedWithDeadlines :=
    sort (λ a b, deadlineTime 0 a - deadlineTime 0 b) tasksWithDeadline in
  sortedWithDeadlines ++ tasksWithoutDeadline.

Definition sortTasksByPriority (state : TaskState) : list Task :=
  sortByPriority (tasks state).

Definition sortTasksByDeadline (state : TaskState) : list Task :=
  sortByDeadline (tasks state).

(** The clock is read only when the first two conjuncts hold. *)
Definition isOverdue (task : Task) : M bool :=
  match deadline task with
  | None => mret false
  | Some d =>
      if decide (status task ≠ Completed)
      then now ← newDate; mret (bool_decide (d < now))
      else mret false
  end.

Definition getOverdueTasks (state : TaskState) : M (list Task) :=
  filterA isOverdue (tasks state).

(** [null] is [None]. *)
Definition getNextTask (state : TaskState) : option Task :=
  let pendingTasks := getPendingTasks state in
  let sortedByPriority := sortByPriority pendingTasks in
  head sortedByPriority.

Definition getNextTaskByDeadline (state : TaskState) : option Task :=
  let pendingTasks := getPendingTasks state in
  let sortedByDeadline := sortByDeadline pendingTasks in
  head sortedByDeadline.

Definition markMultipleCompleted (state : TaskState) (taskIds : list JS.string) : M TaskState :=
  let idSet : gset JS.string := list_to_set taskIds in
  now ← newDate;
  mret {| tasks := map (λ task,
            if decide (id task ∈ idSet ∧ status task ≠ Completed) then
              {| id := id task;
                 title := title task;
                 description := description task;
                 priority := priority task;
                 createdAt := createdAt task;
                 deadline := deadline task;
                 status := Completed;
                 completedAt := Some now |}
            else task) (tasks state) |}.

Definition updatePriorities {P : Type} `{Priority P} (state : TaskStateOf P)
    (taskIds : list JS.string) (newPriority : P) : Result (TaskStateOf P) :=
  if lessThan newPriority (literal 1) || greaterThan newPriority (literal 5) then
    Failure {| message := JS.lit "Priority must be between 1 and 5" |}
  else
    let idSet : gset JS.string := list_to_set taskIds in
    let newState :=
      {| tasks := map (λ task,
           if decide (id task ∈ idSet) then
             {| id := id task;
                title := title task;
                description := description task;
                status := status task;
                createdAt := createdAt task;
                deadline := deadline task;
                completedAt := completedAt task;
                priority := newPriority |}
           else task) (tasks state) |} in
    Ok newState.

(** The callback that [getStatistics] hands to [reduce]. *)
Definition countTask (stats : TaskStatistics) (task : Task) : M TaskStatistics :=
  let newStats :=
    {| total := total stats + 1; pending := pending stats;
       inProgress := inProgress stats; completed := completed stats;
       overdue := overdue stats |} in
  let newStats :=
    match status task with
    | Pending =>
        {| total := total newStats; pending := pending newStats + 1;
           inProgress := inProgress newStats; completed := completed newStats;
           overdue := overdue newStats |}
    | InProgress =>
        {| total := total newStats; pending := pending newStats;
           inProgress := inProgress newStats + 1; completed := completed newStats;
           overdue := overdue newStats |}
    | Completed =>
        {| total := total newStats; pending := pending newStats;
           inProgress := inProgress newStats; completed := completed newStats + 1;
           overdue := overdue newStats |}
    end in
  late ← isOverdue task;
  mret (if late : bool then
          {| total := total newStats; pending := pending newStats;
             inProgress := inProgress newStats; completed := completed newStats;
             overdue := overdue newStats + 1 |}
        else newStats).

Definition getStatistics (state : TaskState) : M TaskStatistics :=
  reduceA countTask (tasks state)
    {| total := 0; pending := 0; inProgress := 0; completed := 0; overdue := 0 |}.

(** ** composition.ts *)

Module Composition.

Definition filterTasksByMinPriority (minPriority : Z) (tasks : list Task) : list Task :=
  filter (λ task, minPriority ≤ priority task) tasks.

Definition filterByStatus (st : TaskStatus) (tasks : list Task) : list Task :=
  filter (λ task, status task = st) tasks.

(** [task.deadline !== undefined && task.deadline < date] *)
Definition deadlineBefore (date : Date) (task : Task) : Prop :=
  match deadline task with
  | Some d => d < date
  | None => False
  end.

#[global] Instance deadlineBefore_dec date task : Decision (deadlineBefore date task).
Proof. unfold deadlineBefore. destruct (deadline task); apply _. Defined.

Definition filterByDeadlineBefore (date : Date) (tasks : list Task) : list Task :=
  filter (deadlineBefore date) tasks.

(** [items.slice(0, n)] for an integer [n]: a negative [n] counts from the
    end of the array, and the end is clamped to the length. *)
Definition take {T : Type} (n : Z) (items : list T) : list T :=
  let len := Z.of_nat (length items) in
  let final := if n <? 0 then Z.max (len + n) 0 else Z.min n len in
  firstn (Z.to_nat final) items.

(** [pipe(a, ab, bc, cd)] of fp-ts *)
Definition fpPipe {A B C D : Type} (a : A) (ab : A → B) (bc : B → C)
    (cd : C → D) : D :=
  cd (bc (ab a)).

Definition getTopPriorityTasks (state : TaskState) (n : Z) : list Task :=
  fpPipe state getPendingTasks sortByPriority (take n).

Definition getHighPriorityPendingTasks (state : TaskState) : list Task :=
  fpPipe state getPendingTasks (filterTasksByMinPriority 4) sortByPriority.

Definition getNextTasksByDeadline (state : TaskState) (n : Z) : list Task :=
  fpPipe state getPendingTasks sortByDeadline (take n).

End Composition.

(** ** Reachable states *)

(** What a caller can build from the initial state with the state-changing
    operations, whatever the clock and the identifier source, when the
    patches handed to [updateTask] are taken among the [allowed] ones. *)
Inductive reachableBy (allowed : TaskUpdate.t → Prop) : TaskState → Prop :=
  | reach_init : reachableBy allowed createInitialState
  | reach_addTask s title description priority deadline w s' w' :
      reachableBy allowed s →
      addTask s title description priority deadline w = (Normal s', w') →
      reachableBy allowed s'
  | reach_removeTask s taskId :
      reachableBy allowed s → reachableBy allowed (removeTask s taskId)
  | reach_updateTaskStatus s taskId newStatus w :
      reachableBy allowed s →
      reachableBy allowed (updateTaskStatus s taskId newStatus w).1
  | reach_markInProgress s taskId w :
      reachableBy allowed s → reachableBy allowed (markInProgress s taskId w).1
  | reach_markCompleted s taskId w :
      reachableBy allowed s → reachableBy allowed (markCompleted s taskId w).1
  | reach_updateTask s taskId taskUpdate s' :
      reachableBy allowed s → allowed taskUpdate →
      updateTask s taskId taskUpdate = Ok s' → reachableBy allowed s'
  | reach_markMultipleCompleted s taskIds w :
      reachableBy allowed s →
      reachableBy allowed (markMultipleCompleted s taskIds w).1
  | reach_updatePriorities s taskIds newPriority s' :
      reachableBy allowed s →
      updatePriorities s taskIds newPriority = Ok s' →
      reachableBy allowed s'.

(** Every patch allowed: the reachable states. *)
Definition reachable : TaskState → Prop := reachableBy (λ _, True).

(** ** Vocabulary of the statements *)

(** [a]'s deadline is not after [b]'s; both have one. *)
Definition deadline_le (a b : Task) : Prop :=
  ∃ da db, deadline a = Some da ∧ deadline b = Some db ∧ da ≤ db.

(** What [isOverdue] decides when the clock shows [now]. *)
Definition overdueAt (now : Date) (task : Task) : Prop :=
  match deadline task with
  | Some d => status task ≠ Completed ∧ d < now
  | None => False
  end.

#[global] Instance overdueAt_dec now task : Decision (overdueAt now task).
Proof. unfold overdueAt. destruct (deadline task); apply _. Defined.

(** The range of a priority. *)
Definition priorityInRange (t : Task) : Prop := 1 ≤ priority t ≤ 5.

(** Something is left of the title after trimming. *)
Definition titleNonEmpty (t : Task) : Prop := JS.trim (title t) ≠ [].

(** A patch that supplies no title, or one that is not blank. *)
Definition keepsTitleNonEmpty (taskUpdate : TaskUpdate.t) : Prop :=
  ∀ ttl, TaskUpdate.title taskUpdate = Some ttl → JS.trim ttl ≠ [].

(** The world after one more reading of the clock. *)
Definition tick (w : World) : World :=
  {| wallClock := wallClock w; clockReads := S (clockReads w);
     uuidSource := uuidSource w; uuidDraws := uuidDraws w |}.

(** [task], completed at [now]. *)
Definition completedTask (task : Task) (now : Date) : Task :=
  {| id := id task;
     title := title task;
     description := description task;
     priority := priority task;
     createdAt := createdAt task;
     deadline := deadline task;
     status := Completed;
     completedAt := Some now |}.

(** A completed task carries a completion timestamp. *)
Definition completedHasTimestamp (t : Task) : Prop :=
  status t = Completed → is_Some (completedAt t).

(** The patch that supplies nothing. *)
Definition emptyPatch : TaskUpdate.t :=
  {| TaskUpdate.title := None; TaskUpdate.description := None;
     TaskUpdate.priority := None; TaskUpdate.deadline := None |}.

(** [task] with another status. *)
Definition withStatus (task : Task) (st : TaskStatus) : Task :=
  {| id := id task;
     title := title task;
     description := description task;
     priority := priority task;
     createdAt := createdAt task;
     deadline := deadline task;
     status := st;
     completedAt := completedAt task |}.

(** [task] with another priority. *)
Definition withPriority {P : Type} (task : TaskOf P) (p : P) : TaskOf P :=
  {| id := id task;
     title := title task;
     description := description task;
     status := status task;
     createdAt := createdAt task;
     deadline := deadline task;
     completedAt := completedAt task;
     priority := p |}.

(** A world for the examples: the clock starts at 1000 and advances by one
    at each reading; the identifiers drawn are "u0", "u1", ... *)
Definition exampleWorld : World :=
  {| wallClock := λ n, 1000 + Z.of_nat n; clockReads := 0;
     uuidSource := λ n, JS.lit "u" ++ [(48 + N.of_nat n)%N]; uuidDraws := 0 |}.

(** A task for the examples. *)
Definition exampleTask (i : String.string) (p : Z) (st : TaskStatus)
    (dl : option Date) : Task :=
  {| id := JS.lit i; title := JS.lit "job"; description := [];
     priority := p; status := st; createdAt := 10; deadline := dl;
     completedAt := match st with Completed => Some 20 | _ => None end |}.

(** An integer priority, as a number of JavaScript. *)
Definition embedTask (t : Task) : TaskOf JS.number :=
  {| id := id t;
     title := title t;
     description := description t;
     priority := JS.Int (priority t);
     status := status t;
     createdAt := createdAt t;
     deadline := deadline t;
     completedAt := completedAt t |}.

Definition embedState (s : TaskState) : TaskStateOf JS.number :=
  {| tasks := map embedTask (tasks s) |}.

Definition embedPatch (u : TaskUpdate.t) : TaskUpdate.tOf JS.number :=
  {| TaskUpdate.title := TaskUpdate.title u;
     TaskUpdate.description := TaskUpdate.description u;
     TaskUpdate.priority := JS.Int <$> TaskUpdate.priority u;
     TaskUpdate.deadline := TaskUpdate.deadline u |}.

Definition mapResult {A B : Type} (f : A → B) (r : Result A) : Result B :=
  match r with
  | Ok v => Ok (f v)
  | Failure e => Failure e
  end.

Definition mapCompletion {A B : Type} (f : A → B) (c : Completion A) :
    Completion B :=
  match c with
  | Normal v => Normal (f v)
  | Throw e => Throw e
  end.

(** A number below 1 or above 5: what the two comparisons of the guards
    catch. NaN is not among them. *)
Definition refusedPriority (p : JS.number) : Prop :=
  ∃ z, p = JS.Int z ∧ (z < 1 ∨ 5 < z).

(** Shows the comparisons of the guards as what they are on the integers. *)
Ltac integers :=
  cbn [lessThan greaterThan literal Z_priority] in *.

(** Unfolds the monad and the two effects. *)
Ltac run :=
  unfold mbind, M_bind, mret, M_ret, newDate, randomUUID; simpl.

(** * Properties *)

(** ** Lists *)

Lemma filter_eq_cons_inv {A : Type} (P : A → Prop) `{!∀ x, Decision (P x)}
    (l : list A) (t : A) (r : list A) :
  filter P l = t :: r →
  ∃ l1 l2, l = l1 ++ t :: l2 ∧ Forall (λ x, ¬ P x) l1 ∧ P t ∧ filter P l2 = r.
Proof.
  induction l as [|x l IH]; [done|].
  rewrite filter_cons. case_decide as Hx.
  - intros [= -> <-]. by exists [], l.
  - intros (l1 & l2 & -> & H1 & Ht & H2)%IH.
    exists (x :: l1), l2. split_and!; [done| by constructor|done|done].
Qed.

Lemma filter_eq_app_cons_inv {A : Type} (P : A → Prop) `{!∀ x, Decision (P x)}
    (l : list A) (pre : list A) (t : A) (post : list A) :
  filter P l = pre ++ t :: post →
  ∃ l1 l2, l = l1 ++ t :: l2 ∧ filter P l1 = pre ∧ P t ∧ filter P l2 = post.
Proof.
  revert l. induction pre as [|p pre IH]; intros l; simpl.
  - intros (l1 & l2 & -> & H1 & Ht & H2)%filter_eq_cons_inv.
    exists l1, l2. split_and!; [done| |done|done].
    induction H1 as [|y l1 Hy _ IH1]; [done|]. by rewrite filter_cons_False.
  - intros (l1 & l2 & -> & H1 & Hp & (l3 & l4 & -> & H3 & Ht & H4)%IH)%filter_eq_cons_inv.
    exists (l1 ++ p :: l3), l4. split_and!; [by rewrite <-app_assoc| |done|done].
    rewrite filter_app, filter_cons_True, H3 by done.
    replace (filter P l1) with (@nil A); [done|].
    clear -H1. induction H1 as [|y l1 Hy _ IH1]; [done|]. by rewrite filter_cons_False.
Qed.

(** ** The sort

    A comparator that orders by an integer key: negative or zero exactly
    when the first key is not above the second. Both comparators of the
    module are of this kind. *)
Section SortSpec.
Context {A : Type} (key : A → Z) (comparefn : A → A → Z).
Hypothesis Hcmp : ∀ a b, comparefn a b ≤ 0 ↔ key a ≤ key b.

Let by_key (a b : A) : Prop := key a ≤ key b.

Lemma sort_insert_Permutation (x : A) (l : list A) :
  sort_insert comparefn x l ≡ₚ x :: l.
Proof.
  induction l as [|y l IH]; simpl; [done|].
  case (comparefn x y <=? 0); [done|].
  rewrite IH. apply perm_swap.
Qed.

Lemma sort_Permutation (l : list A) : sort comparefn l ≡ₚ l.
Proof.
  induction l as [|x l IH]; simpl; [done|].
  by rewrite sort_insert_Permutation, IH.
Qed.

Lemma sort_insert_sorted (x : A) (l : list A) :
  StronglySorted by_key l → StronglySorted by_key (sort_insert comparefn x l).
Proof using Hcmp.
  induction 1 as [|y l Hl IH Hy]; simpl.
  - repeat constructor.
  - destruct (Z.leb_spec (comparefn x y) 0) as [Hle|Hgt].
    + apply Hcmp in Hle. constructor; [by constructor|].
      constructor; [done|].
      eapply Forall_impl; [exact Hy|]. unfold by_key. intros; lia.
    + constructor; [done|].
      rewrite sort_insert_Permutation. constructor; [|done].
      unfold by_key. destruct (decide (key y ≤ key x)) as [|Hn]; [done|].
      exfalso. assert (comparefn x y ≤ 0) by (apply Hcmp; lia). lia.
Qed.

Lemma sort_sorted (l : list A) : StronglySorted by_key (sort comparefn l).
Proof using Hcmp.
  induction l as [|x l IH]; simpl; [constructor|].
  by apply sort_insert_sorted.
Qed.

Lemma sort_insert_stable (k : Z) (x : A) (l : list A) :
  filter (λ a, key a = k) (sort_insert comparefn x l)
  = filter (λ a, key a = k) (x :: l).
Proof using Hcmp.
  induction l as [|y l IH]; simpl; [done|].
  destruct (Z.leb_spec (comparefn x y) 0) as [Hle|Hgt]; [done|].
  assert (key y < key x) as Hlt.
  { destruct (decide (key x ≤ key y)) as [Hn|]; [|lia].
    apply Hcmp in Hn. lia. }
  rewrite (filter_cons _ y), IH, !(filter_cons _ x), !(filter_cons _ y).
  repeat case_decide; done || lia.
Qed.

(** Elements of equal key keep the order they have in the input. *)
Lemma sort_stable (k : Z) (l : list A) :
  filter (λ a, key a = k) (sort comparefn l) = filter (λ a, key a = k) l.
Proof using Hcmp.
  induction l as [|x l IH]; simpl; [done|].
  by rewrite sort_insert_stable, !filter_cons, IH.
Qed.

(** Sortedness and stability leave one result only, so the lemmas above
    hold of the result of any conforming [sort], not of this algorithm
    alone. *)
Lemma sorted_stable_unique (l1 l2 : list A) :
  StronglySorted by_key l1 → StronglySorted by_key l2 →
  (∀ k, filter (λ a, key a = k) l1 = filter (λ a, key a = k) l2) →
  l1 = l2.
Proof.
  intros H1. revert l2.
  induction H1 as [|x l1 Hl1 IH Hx]; intros l2 H2 Heq.
  - destruct l2 as [|y l2]; [done|].
    specialize (Heq (key y)). by rewrite filter_cons_True in Heq.
  - destruct H2 as [|y l2 Hl2 Hy].
    { specialize (Heq (key x)). by rewrite filter_cons_True in Heq. }
    assert (key x = key y) as Hk.
    { apply Z.le_antisymm.
      - assert (y ∈ x :: l1) as Hin.
        { eapply (list_elem_of_filter (λ a, key a = key y)).
          rewrite Heq, filter_cons_True by done. left. }
        apply elem_of_cons in Hin as [->|Hin]; [done|].
        by eapply Forall_forall in Hx.
      - assert (x ∈ y :: l2) as Hin.
        { eapply (list_elem_of_filter (λ a, key a = key x)).
          rewrite <-Heq, filter_cons_True by done. left. }
        apply elem_of_cons in Hin as [->|Hin]; [done|].
        by eapply Forall_forall in Hy. }
    assert (x = y) as ->.
    { specialize (Heq (key x)).
      rewrite !filter_cons_True in Heq by done. by injection Heq. }
    f_equal. apply IH; [done|]. intros k. specialize (Heq k).
    rewrite !filter_cons in Heq. case_decide; [by injection Heq|done].
Qed.

Lemma sort_unique (l l' : list A) :
  StronglySorted by_key l' →
  (∀ k, filter (λ a, key a = k) l' = filter (λ a, key a = k) l) →
  l' = sort comparefn l.
Proof using Hcmp.
  intros Hs Hst. apply sorted_stable_unique; [done|apply sort_sorted|].
  intros k. by rewrite Hst, sort_stable.
Qed.

Lemma sort_nil_inv (l : list A) : sort comparefn l = [] → l = [].
Proof.
  intros H. apply Permutation_nil_r. by rewrite <-H, sort_Permutation.
Qed.

(** The first element of the result: the first element of the input among
    those of least key. *)
Lemma sort_head (l : list A) (t : A) (rest : list A) :
  sort comparefn l = t :: rest →
  ∃ l1 l2, l = l1 ++ t :: l2
    ∧ Forall (λ x, key t < key x) l1 ∧ Forall (λ x, key t ≤ key x) l2.
Proof using Hcmp.
  intros Hsort.
  assert (∀ x, x ∈ l → key t ≤ key x) as Hleast.
  { intros x Hx. rewrite <-(sort_Permutation l), Hsort in Hx.
    pose proof (sort_sorted l) as Hs. rewrite Hsort in Hs.
    apply StronglySorted_inv in Hs as [_ Hs].
    apply elem_of_cons in Hx as [->|Hx]; [done|].
    by eapply Forall_forall in Hs. }
  pose proof (sort_stable (key t) l) as Hst.
  rewrite Hsort, filter_cons_True in Hst by done. symmetry in Hst.
  apply filter_eq_cons_inv in Hst as (l1 & l2 & -> & H1 & _ & _).
  exists l1, l2. split_and!; [done| |].
  - apply Forall_forall. intros x Hx.
    assert (key t ≤ key x) by (apply Hleast, elem_of_app; by left).
    eapply Forall_forall in H1; [|done]. lia.
  - apply Forall_forall. intros x Hx.
    apply Hleast, elem_of_app. right. by right.
Qed.

End SortSpec.

(** ** Trimming *)

Lemma trimStart_nil (s : JS.string) :
  JS.trimStart s = [] ↔ Forall (λ c, JS.isWhiteSpace c = true) s.
Proof.
  induction s as [|c s IH]; simpl; [done|].
  destruct (JS.isWhiteSpace c) eqn:Hc.
  - rewrite IH. split; [by constructor|by inversion 1].
  - split; [done|]. inversion 1; congruence.
Qed.

Lemma trimStart_head (s : JS.string) (c : N) (r : JS.string) :
  JS.trimStart s = c :: r → JS.isWhiteSpace c = false.
Proof.
  induction s as [|c' s IH]; simpl; [done|].
  destruct (JS.isWhiteSpace c') eqn:Hc'; [done|congruence].
Qed.

(** Nothing is left of a string after trimming exactly when the string is
    made of white space only. *)
Lemma trim_nil (s : JS.string) :
  JS.trim s = [] ↔ Forall (λ c, JS.isWhiteSpace c = true) s.
Proof.
  unfold JS.trim, JS.trimEnd. split.
  - intros H. apply (f_equal reverse) in H.
    rewrite reverse_involutive, reverse_nil in H.
    apply trimStart_nil, Forall_reverse in H.
    rewrite reverse_involutive in H. apply trimStart_nil.
    destruct (JS.trimStart s) as [|c r] eqn:Hs; [done|].
    apply trimStart_head in Hs. inversion H; congruence.
  - intros H%trimStart_nil. by rewrite H.
Qed.

(** ** Running the effects *)

Lemma mapA_Forall2 {A B : Type} (R : A → B → Prop) (f : A → M B) (l : list A) :
  (∀ x w, R x (f x w).1) → ∀ w, Forall2 R l (mapA f l w).1.
Proof.
  intros Hf. induction l as [|x l IH]; intros w; simpl; [by constructor|].
  run. specialize (Hf x w). destruct (f x w) as [y w1]. specialize (IH w1).
  destruct (mapA f l w1) as [ys w2]. simpl in *. by constructor.
Qed.

(** ** addTask *)

Section AddTask.
Implicit Types (s : TaskState) (w : World) (ttl descr : JS.string) (prio : Z).

Lemma createTask_throws ttl descr prio dl w :
  prio < 1 ∨ 5 < prio ∨ JS.trim ttl = [] →
  ∃ e, createTask ttl descr prio dl w = (Throw e, w).
Proof.
  intros Hbad. unfold createTask. integers.
  destruct ((prio <? 1) || (prio >? 5)) eqn:Hp; [by eexists|].
  destruct Hbad as [?|[?|Ht]]; [lia..|]. rewrite Ht. by eexists.
Qed.

Lemma createTask_returns ttl descr prio dl w :
  1 ≤ prio ≤ 5 → JS.trim ttl ≠ [] →
  (createTask ttl descr prio dl w).1 =
    Normal {| id := uuidSource w (uuidDraws w);
              title := ttl;
              description := descr;
              priority := prio;
              deadline := dl;
              status := Pending;
              createdAt := wallClock w (clockReads w);
              completedAt := None |}.
Proof.
  intros Hp Ht. unfold createTask. integers.
  destruct ((prio <? 1) || (prio >? 5)) eqn:Hp'; [lia|].
  destruct (JS.trim ttl); done.
Qed.

(** On integer priorities, [addTask] throws exactly when the priority is
    outside 1..5 or the title is empty after trimming;
    otherwise it returns the old collection with one task appended at the
    end, which is pending, has no completion timestamp and carries the given
    priority and deadline (and a fresh identifier and the current time). *)
Theorem addTask_spec s ttl descr prio dl w :
  let rejected := prio < 1 ∨ 5 < prio ∨ JS.trim ttl = [] in
  let outcome := (addTask s ttl descr prio dl w).1 in
  ((∃ e, outcome = Throw e) ↔ rejected)
  ∧ (rejected
     ∨ ∃ task,
         outcome = Normal {| tasks := tasks s ++ [task] |}
         ∧ status task = Pending
         ∧ completedAt task = None
         ∧ priority task = prio
         ∧ deadline task = dl
         ∧ id task = uuidSource w (uuidDraws w)
         ∧ createdAt task = wallClock w (clockReads w)).
Proof.
  intros rejected outcome.
  destruct (decide (1 ≤ prio ≤ 5)) as [Hp|Hp];
    [destruct (decide (JS.trim ttl = [])) as [Ht|Ht]|].
  2:{ pose proof (createTask_returns ttl descr prio dl w Hp Ht) as Hc.
      assert (∃ task, outcome = Normal {| tasks := tasks s ++ [task] |}
                ∧ task = {| id := uuidSource w (uuidDraws w); title := ttl;
                            description := descr; priority := prio;
                            deadline := dl; status := Pending;
                            createdAt := wallClock w (clockReads w);
                            completedAt := None |}) as (task & Ho & ->).
      { subst outcome. unfold addTask. run.
        destruct (createTask ttl descr prio dl w) as [c w1]. simpl in Hc.
        subst c. by eexists. }
      split.
      - split; [intros [e He]; congruence|].
        unfold rejected. intros [?|[?|?]]; [lia|lia|done].
      - right. eexists. split; [exact Ho|]. by split_and!. }
  all: assert (rejected) as Hr by (unfold rejected; tauto || lia).
  all: split; [|by left]; split; [done|intros _].
  all: destruct (createTask_throws ttl descr prio dl w Hr) as [e He].
  all: exists e; subst outcome; unfold addTask; run; by rewrite He.
Qed.

Lemma addTask_Normal_inv s ttl descr prio dl w s' w' :
  addTask s ttl descr prio dl w = (Normal s', w') →
  1 ≤ prio ≤ 5 ∧ JS.trim ttl ≠ []
  ∧ s' = {| tasks := tasks s ++
              [{| id := uuidSource w (uuidDraws w);
                  title := ttl;
                  description := descr;
                  priority := prio;
                  deadline := dl;
                  status := Pending;
                  createdAt := wallClock w (clockReads w);
                  completedAt := None |}] |}.
Proof.
  unfold addTask, createTask. integers.
  destruct ((prio <? 1) || (prio >? 5)) eqn:Hp; [by run|].
  destruct (JS.trim ttl) eqn:Ht; [by run|].
  run. intros [= <- _]. split_and!; [lia|lia|done|done].
Qed.

(** C10. A task that [addTask] appends stores the title and the description
    as they were given, surrounding white space included: the trimmed title
    is used by the validation only. *)
Theorem addTask_stores_strings_verbatim s ttl descr prio dl w s' w' :
  addTask s ttl descr prio dl w = (Normal s', w') →
  ∃ task, tasks s' = tasks s ++ [task]
    ∧ title task = ttl ∧ description task = descr.
Proof.
  intros (_ & _ & ->)%addTask_Normal_inv. by eexists.
Qed.

End AddTask.

(** A title with a space on either side is accepted and kept as it is. *)
Lemma addTask_stores_strings_verbatim_witness :
  ∃ task,
    tasks {| tasks := [{| id := JS.lit "u0"; title := JS.lit " a ";
                          description := JS.lit " d"; priority := 3;
                          status := Pending; createdAt := 1000;
                          deadline := None; completedAt := None |}] |}
      = tasks createInitialState ++ [task]
    ∧ title task = JS.lit " a " ∧ description task = JS.lit " d".
Proof.
  apply (addTask_stores_strings_verbatim createInitialState
           (JS.lit " a ") (JS.lit " d") 3 None
           {| wallClock := λ n, 1000 + Z.of_nat n; clockReads := 0;
              uuidSource := λ n, JS.lit "u" ++ [48 + N.of_nat n]%N;
              uuidDraws := 0 |}
           _
           {| wallClock := λ n, 1000 + Z.of_nat n; clockReads := 1;
              uuidSource := λ n, JS.lit "u" ++ [48 + N.of_nat n]%N;
              uuidDraws := 1 |}).
  reflexivity.
Defined.

(** ** Sorting and the next task *)

Lemma sort_insert_ext {A : Type} (f g : A → A → Z) (x : A) (l : list A) :
  (∀ y, y ∈ l → f x y = g x y) → sort_insert f x l = sort_insert g x l.
Proof.
  induction l as [|y l IH]; intros Hfg; simpl; [done|].
  rewrite (Hfg y) by left. rewrite IH; [done|].
  intros z Hz. apply Hfg. by right.
Qed.

(** The result depends on the comparator through the pairs of elements of
    the array only. *)
Lemma sort_ext {A : Type} (f g : A → A → Z) (l : list A) :
  (∀ a b, a ∈ l → b ∈ l → f a b = g a b) → sort f l = sort g l.
Proof.
  induction l as [|x l IH]; intros Hfg; simpl; [done|].
  rewrite IH by (intros a b Ha Hb; apply Hfg; by right).
  apply sort_insert_ext. intros y Hy. apply Hfg; [left|right].
  by rewrite sort_Permutation in Hy.
Qed.

(** The comparator of [sortByDeadline] never meets a task without a
    deadline: what [deadlineTime] gives there does not matter. *)
Lemma sortByDeadline_filtered (dflt : Z) (ts : list Task) :
  sort (λ a b, deadlineTime dflt a - deadlineTime dflt b)
       (filter (λ task, deadline task ≠ None) ts)
  = sort (λ a b, deadlineTime 0 a - deadlineTime 0 b)
         (filter (λ task, deadline task ≠ None) ts).
Proof.
  apply sort_ext. intros a b [Ha _]%list_elem_of_filter [Hb _]%list_elem_of_filter.
  unfold deadlineTime. by destruct (deadline a), (deadline b).
Qed.

Lemma StronglySorted_Forall_impl {A : Type} (R R' : A → A → Prop)
    (P : A → Prop) (l : list A) :
  (∀ a b, P a → P b → R a b → R' a b) →
  Forall P l → StronglySorted R l → StronglySorted R' l.
Proof.
  intros HR HP Hs. induction Hs as [|x l Hs IH Hx]; [constructor|].
  apply Forall_cons in HP as [Px Pl]. constructor; [by apply IH|].
  apply Forall_forall. intros y Hy.
  apply HR; [done| |]; by eapply Forall_forall.
Qed.

(** C8. [sortByDeadline] returns the tasks that have a deadline in
    ascending order of deadline, followed by the tasks that have none in
    the order the input has them; the result is a permutation of the input,
    so no task is dropped or duplicated. *)
Theorem sortByDeadline_spec (ts : list Task) :
  ∃ dated undated,
    sortByDeadline ts = dated ++ undated
    ∧ dated ≡ₚ filter (λ task, deadline task ≠ None) ts
    ∧ StronglySorted deadline_le dated
    ∧ undated = filter (λ task, deadline task = None) ts
    ∧ sortByDeadline ts ≡ₚ ts.
Proof.
  unfold sortByDeadline.
  set (cmp := λ a b : Task, deadlineTime 0 a - deadlineTime 0 b).
  set (withD := filter (λ task, deadline task ≠ None) ts).
  set (withoutD := filter (λ task, deadline task = None) ts).
  exists (sort cmp withD), withoutD.
  split_and!; [done|apply sort_Permutation| |done|].
  - eapply (StronglySorted_Forall_impl _ _ (λ t, deadline t ≠ None)).
    3: apply (sort_sorted (deadlineTime 0) cmp); intros a b; unfold cmp; lia.
    + intros a b Ha Hb Hab. unfold deadline_le, deadlineTime, getTime in *.
      destruct (deadline a) as [da|], (deadline b) as [db|]; try done.
      by exists da, db.
    + apply Forall_forall. intros t Ht.
      rewrite sort_Permutation in Ht. by apply list_elem_of_filter in Ht as [? _].
  - rewrite sort_Permutation, Permutation_app_comm.
    apply (filter_app_complement (λ task, deadline task = None)).
Qed.

(** C7. When the state holds a pending task, [getNextTask] returns a pending
    task [t] such that every pending task before [t] in the state's order
    has a strictly lower priority and every pending task after [t] has a
    priority that is not higher: the earliest inserted of the pending tasks
    of highest priority. When no task is pending it returns [None], the
    model of [null]. *)
Theorem getNextTask_spec (s : TaskState) :
  ((∃ x, x ∈ tasks s ∧ status x = Pending) →
   ∃ t before after,
     getNextTask s = Some t
     ∧ tasks s = before ++ t :: after
     ∧ status t = Pending
     ∧ Forall (λ x, status x = Pending → priority x < priority t) before
     ∧ Forall (λ x, status x = Pending → priority x ≤ priority t) after)
  ∧ ((∀ x, x ∈ tasks s → status x ≠ Pending) → getNextTask s = None).
Proof.
  unfold getNextTask, getPendingTasks, getTasksByStatus, sortByPriority.
  set (cmp := λ a b : Task, priority b - priority a).
  set (pendingTasks := filter (λ task, status task = Pending) (tasks s)).
  assert (∀ a b, cmp a b ≤ 0 ↔ - priority a ≤ - priority b) as Hcmp
    by (intros; unfold cmp; lia).
  split.
  - intros (x & Hx & Hp).
    destruct (sort cmp pendingTasks) as [|t rest] eqn:Hsort.
    { apply sort_nil_inv in Hsort.
      assert (x ∈ pendingTasks) as Hin by by apply list_elem_of_filter.
      rewrite Hsort in Hin. by apply elem_of_nil in Hin. }
    apply (sort_head (λ t, - priority t) cmp Hcmp) in Hsort
      as (l1 & l2 & Hsplit & H1 & H2).
    apply filter_eq_app_cons_inv in Hsplit as (b & a & Hs & <- & Ht & <-).
    exists t, b, a. split_and!; [done..| |].
    + apply Forall_forall. intros y Hy Hpy.
      eapply Forall_forall in H1; [|by apply list_elem_of_filter]. simpl in H1. lia.
    + apply Forall_forall. intros y Hy Hpy.
      eapply Forall_forall in H2; [|by apply list_elem_of_filter]. simpl in H2. lia.
  - intros Hnone.
    destruct pendingTasks as [|y r] eqn:Hpend; [done|]. exfalso.
    assert (y ∈ pendingTasks) as Hy by (rewrite Hpend; left).
    apply list_elem_of_filter in Hy as [Hp Hy]. by eapply Hnone.
Qed.

(** Three pending tasks, the last two of priority 5, and a completed one
    of priority 5 before them. *)
Lemma getNextTask_spec_witness :
  let mk i p st :=
    {| id := JS.lit i; title := JS.lit "job"; description := [];
       priority := p; status := st; createdAt := 10; deadline := None;
       completedAt := None |} in
  let s := {| tasks := [mk "a" 3 Pending; mk "b" 5 Completed;
                        mk "c" 5 Pending; mk "d" 5 Pending] |} in
  getNextTask s = Some (mk "c" 5 Pending)
  ∧ ∃ t before after,
      getNextTask s = Some t
      ∧ tasks s = before ++ t :: after
      ∧ status t = Pending
      ∧ Forall (λ x, status x = Pending → priority x < priority t) before
      ∧ Forall (λ x, status x = Pending → priority x ≤ priority t) after.
Proof.
  intros mk s. split; [reflexivity|].
  apply (proj1 (getNextTask_spec s)).
  exists (mk "a" 3 Pending). split; [left|reflexivity].
Defined.

(** ** Statistics *)

Lemma reduce_countTask (l : list Task) (acc : TaskStatistics) (w : World) :
  let r := reduceA countTask l acc w in
  let late := filterA isOverdue l w in
  (total r.1 = total acc + length l
   ∧ pending r.1 = pending acc + length (filter (λ t, status t = Pending) l)
   ∧ inProgress r.1 = inProgress acc + length (filter (λ t, status t = InProgress) l)
   ∧ completed r.1 = completed acc + length (filter (λ t, status t = Completed) l)
   ∧ pending r.1 + inProgress r.1 + completed r.1
     = pending acc + inProgress acc + completed acc + length l
   ∧ overdue r.1 = overdue acc + length late.1)%nat
  ∧ r.2 = late.2.
Proof.
  revert acc w. induction l as [|x l IH]; intros acc w; simpl.
  { run. split_and!; lia || done. }
  run. destruct (countTask acc x w) as [acc1 w1] eqn:Hstep.
  unfold countTask, mbind, M_bind, mret, M_ret in Hstep.
  destruct (isOverdue x w) as [b w1']. injection Hstep as <- <-.
  match goal with
  | |- context [reduceA countTask l ?a w1'] => specialize (IH a w1')
  end.
  destruct (reduceA countTask l _ w1') as [stats w2].
  destruct (filterA isOverdue l w1') as [ys w3]. simpl in IH |- *.
  destruct IH as [(Ht & Hp & Hi & Hc & Hsum & Ho) ->]. split; [|done].
  rewrite !filter_cons.
  destruct (status x), b; repeat case_decide; simpl in *; try done;
    split_and!; lia.
Qed.

(** C9. The total is the number of tasks and the three status counts add up
    to it (each is the size of its status view); the overdue count is the
    number of tasks that [isOverdue] accepts, that is the size of what
    [getOverdueTasks] returns under the same clock, whatever the status
    counts are: one pending task past its deadline gives total 1, pending 1
    and overdue 1. *)
Theorem getStatistics_spec :
  (∀ (s : TaskState) (w : World),
     let stats := (getStatistics s w).1 in
     (total stats = length (tasks s)
      ∧ pending stats + inProgress stats + completed stats = total stats
      ∧ pending stats = length (getPendingTasks s)
      ∧ inProgress stats = length (getInProgressTasks s)
      ∧ completed stats = length (getCompletedTasks s)
      ∧ overdue stats = length (getOverdueTasks s w).1)%nat)
  ∧ (∃ (s : TaskState) (w : World),
       let stats := (getStatistics s w).1 in
       (total stats = 1 ∧ pending stats = 1 ∧ inProgress stats = 0
        ∧ completed stats = 0 ∧ overdue stats = 1)%nat).
Proof.
  split.
  - intros s w stats. subst stats. unfold getStatistics.
    destruct (reduce_countTask (tasks s)
      {| total := 0; pending := 0; inProgress := 0; completed := 0; overdue := 0 |} w)
      as [(Ht & Hp & Hi & Hc & Hsum & Ho) _].
    simpl in *. unfold getPendingTasks, getInProgressTasks, getCompletedTasks,
      getOverdueTasks, getTasksByStatus. split_and!; lia || done.
  - exists {| tasks := [{| id := JS.lit "a"; title := JS.lit "pay rent";
                           description := []; priority := 2; status := Pending;
                           createdAt := 10; deadline := Some 20;
                           completedAt := None |}] |},
           {| wallClock := λ _, 30; clockReads := 0;
              uuidSource := λ _, []; uuidDraws := 0 |}.
    vm_compute. by split_and!.
Qed.

(** When the clock stands still during the call, the overdue tasks are the
    unfinished tasks whose deadline is before that time. *)
Lemma getOverdueTasks_still_clock (l : list Task) (w : World) (now : Date) :
  (∀ n, wallClock w (clockReads w + n) = now) →
  (filterA isOverdue l w).1 = filter (overdueAt now) l.
Proof.
  revert w. induction l as [|x l IH]; intros w Hstill; [done|].
  simpl. run. rewrite filter_cons. unfold isOverdue at 1.
  pose proof (Hstill 0%nat) as H0. rewrite Nat.add_0_r in H0.
  destruct (decide (overdueAt now x)) as [Hd|Hd]; unfold overdueAt in Hd.
  all: destruct (deadline x) as [d|];
         [destruct (decide (status x ≠ Completed)) as [Hs|Hs]|]; run.
  all: try rewrite H0.
  all: match goal with
       | |- context [filterA isOverdue ?l' ?w1] =>
           specialize (IH w1); destruct (filterA isOverdue l' w1) as [ys w2]
       end; simpl in *.
  all: rewrite IH;
         [|intros n; try done; rewrite <-Nat.add_succ_r; apply Hstill].
  all: try case_bool_decide; try done; try tauto; destruct Hd; done || lia.
Qed.

(** ** Batch completion *)

Lemma Forall2_map_diag {A B : Type} (R : A → B → Prop) (f : A → B) (l : list A) :
  (∀ x, R x (f x)) → Forall2 R l (map f l).
Proof. intros Hf. induction l; simpl; by constructor. Qed.

(** C5. [markMultipleCompleted] reads the clock once. Position by position,
    a task whose identifier is among [taskIds] and that is not completed
    becomes the same task with status [Completed] and that one reading as
    completion timestamp; any other task, a completed one named in
    [taskIds] included, is returned as it is. *)
Theorem markMultipleCompleted_spec (s : TaskState) (taskIds : list JS.string)
    (w : World) :
  let now := wallClock w (clockReads w) in
  let r := markMultipleCompleted s taskIds w in
  clockReads r.2 = S (clockReads w)
  ∧ Forall2 (λ t t',
      if decide (id t ∈ taskIds ∧ status t ≠ Completed) then
        t' = {| id := id t;
                title := title t;
                description := description t;
                priority := priority t;
                createdAt := createdAt t;
                deadline := deadline t;
                status := Completed;
                completedAt := Some now |}
      else t' = t) (tasks s) (tasks r.1).
Proof.
  intros now r. subst r. unfold markMultipleCompleted. run.
  split; [done|]. apply Forall2_map_diag. intros t.
  destruct (decide (id t ∈ taskIds ∧ status t ≠ Completed)) as [[Hin Hst]|Hno].
  - rewrite decide_True; [done|]. split; [|done]. by apply elem_of_list_to_set.
  - rewrite decide_False; [done|]. intros [Hin%elem_of_list_to_set Hst]. tauto.
Qed.

(** ** updateTask *)

Lemma existsb_id_false (l : list Task) (taskId : JS.string) :
  existsb (λ t, bool_decide (id t = taskId)) l = false
  ↔ Forall (λ t, id t ≠ taskId) l.
Proof.
  induction l as [|x l IH]; simpl; [done|].
  rewrite orb_false_iff, IH, Forall_cons, bool_decide_eq_false. done.
Qed.

(** On integer priorities, [updateTask] returns a failure exactly when no
    task has the identifier or a priority is supplied outside 1..5, and a
    success otherwise. With no such task the error reads "Task with id <id> not
    found"; with one, and a bad priority, it reads "Priority must be between
    1 and 5". A failure carries the error alone: no state comes back, and the
    state passed in, a value that [updateTask] only reads, holds what it
    held. *)
Theorem updateTask_failure_spec (s : TaskState) (taskId : JS.string)
    (taskUpdate : TaskUpdate.t) :
  let notFound := Forall (λ t, id t ≠ taskId) (tasks s) in
  let invalidPriority :=
    ∃ p, TaskUpdate.priority taskUpdate = Some p ∧ (p < 1 ∨ 5 < p) in
  let result := updateTask s taskId taskUpdate in
  ((∃ e, result = Failure e) ↔ notFound ∨ invalidPriority)
  ∧ ((∃ s', result = Ok s') ↔ ¬ (notFound ∨ invalidPriority))
  ∧ (notFound →
       result = Failure {| message :=
         JS.lit "Task with id " ++ taskId ++ JS.lit " not found" |})
  ∧ (¬ notFound → invalidPriority →
       result = Failure {| message := JS.lit "Priority must be between 1 and 5" |}).
Proof.
  intros notFound invalidPriority result. subst result. unfold updateTask. integers.
  destruct (existsb _ (tasks s)) eqn:Hex; simpl.
  - assert (¬ notFound) as Hfound.
    { intros H%existsb_id_false. congruence. }
    destruct (TaskUpdate.priority taskUpdate) as [p|] eqn:Hp.
    + destruct ((p <? 1) || (p >? 5)) eqn:Hrange.
      * assert (invalidPriority) by (exists p; split; [done|lia]).
        split_and!; [split; [by right|by eexists]| |done|done].
        split; [by intros [? ?]|tauto].
      * assert (¬ invalidPriority) by (intros (p' & [= <-] & ?); lia).
        split_and!; [split; [by intros [? ?]|tauto]| |done|done].
        split; [tauto|by eexists].
    + assert (¬ invalidPriority) by (by intros (p' & ? & ?)).
      split_and!; [split; [by intros [? ?]|tauto]| |done|done].
      split; [tauto|by eexists].
  - assert (notFound) as Hnf by by apply existsb_id_false.
    split_and!; [split; [by left|by eexists]| |done|done].
    split; [by intros [? ?]|tauto].
Qed.

(** What a successful [updateTask] does, position by position: the tasks
    with the identifier take the supplied title, description, priority and
    (non-null) deadline and keep the rest; a [null] deadline is treated as
    one that was left out. *)
Lemma updateTask_success (s : TaskState) (taskId : JS.string)
    (taskUpdate : TaskUpdate.t) :
  (∃ t, t ∈ tasks s ∧ id t = taskId) →
  (∀ p, TaskUpdate.priority taskUpdate = Some p → 1 ≤ p ≤ 5) →
  ∃ s', updateTask s taskId taskUpdate = Ok s'
    ∧ Forall2 (λ t t',
        if decide (id t = taskId) then
          id t' = id t ∧ status t' = status t
          ∧ createdAt t' = createdAt t ∧ completedAt t' = completedAt t
          ∧ title t' = default (title t) (TaskUpdate.title taskUpdate)
          ∧ description t' = default (description t) (TaskUpdate.description taskUpdate)
          ∧ priority t' = default (priority t) (TaskUpdate.priority taskUpdate)
          ∧ deadline t' = match TaskUpdate.deadline taskUpdate with
                          | Some (NotNull d) => Some d
                          | Some Null | None => deadline t
                          end
        else t' = t) (tasks s) (tasks s').
Proof.
  intros (t & Hin & Hid) Hprio. unfold updateTask. integers.
  destruct (existsb _ (tasks s)) eqn:Hex; simpl.
  2:{ apply existsb_id_false in Hex. by eapply Forall_forall in Hex. }
  destruct (TaskUpdate.priority taskUpdate) as [p|] eqn:Hp.
  1: specialize (Hprio p eq_refl);
     destruct ((p <? 1) || (p >? 5)) eqn:Hrange; [lia|].
  all: eexists; split; [done|]; simpl.
  all: apply Forall2_map_diag; intros x; case_decide; [|done].
  all: rewrite ?Hp; simpl; split_and!; try done.
  all: by destruct (TaskUpdate.title taskUpdate) || by destruct (TaskUpdate.description taskUpdate)
       || by destruct (TaskUpdate.deadline taskUpdate) as [[|?]|].
Qed.

(** ** Status changes *)

Lemma mapA_app {A B : Type} (f : A → M B) (l1 l2 : list A) (w : World) :
  mapA f (l1 ++ l2) w =
    let '(ys1, w1) := mapA f l1 w in
    let '(ys2, w2) := mapA f l2 w1 in (ys1 ++ ys2, w2).
Proof.
  revert w. induction l1 as [|x l1 IH]; intros w; simpl.
  - run. by destruct (mapA f l2 w).
  - run. destruct (f x w) as [y w0]. rewrite IH.
    destruct (mapA f l1 w0) as [ys1 w1]. by destruct (mapA f l2 w1).
Qed.

Lemma mapA_setStatus_other (taskId : JS.string) (st : TaskStatus)
    (l : list Task) (w : World) :
  Forall (λ t, id t ≠ taskId) l → mapA (setStatus taskId st) l w = (l, w).
Proof.
  induction 1 as [|x l Hx _ IH]; simpl; [done|].
  run. unfold setStatus at 1. rewrite decide_False by done. run. by rewrite IH.
Qed.

(** [markCompleted] on the one task that has the identifier: whatever its
    status, the task comes back completed at the time of this call. *)
Lemma markCompleted_stamps (s : TaskState) (l1 l2 : list Task) (t : Task)
    (w : World) :
  tasks s = l1 ++ t :: l2 →
  Forall (λ x, id x ≠ id t) l1 → Forall (λ x, id x ≠ id t) l2 →
  markCompleted s (id t) w =
    ({| tasks := l1 ++ completedTask t (wallClock w (clockReads w)) :: l2 |},
     tick w).
Proof.
  intros Hs H1 H2. unfold markCompleted, updateTaskStatus. run.
  rewrite Hs, mapA_app, mapA_setStatus_other by done. simpl. run.
  unfold setStatus at 1. rewrite !decide_True by done. run.
  by rewrite mapA_setStatus_other.
Qed.

(** Two calls in a row: the timestamp that remains is the second reading of
    the clock, not the first. *)
Lemma markCompleted_twice (s : TaskState) (l1 l2 : list Task) (t : Task)
    (w : World) :
  tasks s = l1 ++ t :: l2 →
  Forall (λ x, id x ≠ id t) l1 → Forall (λ x, id x ≠ id t) l2 →
  let '(s1, w1) := markCompleted s (id t) w in
  (markCompleted s1 (id t) w1).1 =
    {| tasks := l1 ++ completedTask t (wallClock w (S (clockReads w))) :: l2 |}.
Proof.
  intros Hs H1 H2. rewrite (markCompleted_stamps s l1 l2 t w) by done.
  set (t1 := completedTask t (wallClock w (clockReads w))).
  by rewrite (markCompleted_stamps _ l1 l2 t1 (tick w)).
Qed.

(** C1. The code at the failing input: one pending task, completed twice
    while the clock moves from 1000 to 1001. The task is completed after
    either call, but the second call replaces the timestamp 1000 by 1001. *)
Theorem markCompleted_twice_restamps :
  let w0 := {| wallClock := λ n, 1000 + Z.of_nat n; clockReads := 0;
               uuidSource := λ _, []; uuidDraws := 0 |} in
  let s0 := {| tasks := [{| id := JS.lit "a"; title := JS.lit "pay rent";
                            description := []; priority := 3;
                            status := Pending; createdAt := 990;
                            deadline := None; completedAt := None |}] |} in
  let '(s1, w1) := markCompleted s0 (JS.lit "a") w0 in
  let '(s2, w2) := markCompleted s1 (JS.lit "a") w1 in
  map status (tasks s1) = [Completed]
  ∧ map completedAt (tasks s1) = [Some 1000]
  ∧ map status (tasks s2) = [Completed]
  ∧ map completedAt (tasks s2) = [Some 1001].
Proof. vm_compute. by split_and!. Qed.

(** C2. The code at the failing input: a patch that supplies [deadline:
    null] for a task whose deadline is 20 succeeds and returns the state it
    was given, the deadline still 20. *)
Theorem updateTask_null_deadline_ignored :
  let s0 := {| tasks := [{| id := JS.lit "a"; title := JS.lit "pay rent";
                            description := []; priority := 3;
                            status := Pending; createdAt := 10;
                            deadline := Some 20; completedAt := None |}] |} in
  updateTask s0 (JS.lit "a")
    {| TaskUpdate.title := None; TaskUpdate.description := None;
       TaskUpdate.priority := None; TaskUpdate.deadline := Some Null |}
  = Ok s0.
Proof. reflexivity. Qed.

(** ** The invariant on reachable states *)

Lemma setStatus_keeps (taskId : JS.string) (st : TaskStatus) (t : Task)
    (w : World) :
  priority (setStatus taskId st t w).1 = priority t
  ∧ title (setStatus taskId st t w).1 = title t.
Proof.
  unfold setStatus. case_decide; [|done]. by case_decide.
Qed.

Lemma updateTaskStatus_Forall (P : Task → Prop) (s : TaskState)
    (taskId : JS.string) (st : TaskStatus) (w : World) :
  (∀ t t', priority t' = priority t → title t' = title t → P t → P t') →
  Forall P (tasks s) →
  Forall P (tasks (updateTaskStatus s taskId st w).1).
Proof.
  intros HP Hs. unfold updateTaskStatus. run.
  pose proof (mapA_Forall2
                (λ t t', priority t' = priority t ∧ title t' = title t)
                (setStatus taskId st) (tasks s)
                (setStatus_keeps taskId st) w) as H2.
  destruct (mapA _ (tasks s) w) as [l' w']. simpl in *.
  induction H2 as [|x y l k [Hp Ht] _ IH]; [done|].
  apply Forall_cons in Hs as [Hx Hl].
  constructor; [by eapply HP|by apply IH].
Qed.

Lemma Forall_map_impl {A B : Type} (P : A → Prop) (Q : B → Prop) (f : A → B)
    (l : list A) :
  (∀ x, P x → Q (f x)) → Forall P l → Forall Q (map f l).
Proof.
  intros Hf. induction 1; simpl; constructor; auto.
Qed.

(** The priority half of the invariant holds: every operation keeps the
    priorities within 1..5, whatever the patches. *)
Lemma reachableBy_priorityInRange (allowed : TaskUpdate.t → Prop)
    (s : TaskState) :
  reachableBy allowed s → Forall priorityInRange (tasks s).
Proof.
  induction 1 as [ | s ttl descr prio dl w s' w' _ IH Hadd | s taskId _ IH
                 | s taskId st w _ IH | s taskId w _ IH | s taskId w _ IH
                 | s taskId u s' _ IH _ Hupd | s taskIds w _ IH
                 | s taskIds prio s' _ IH Hupd ].
  - constructor.
  - apply addTask_Normal_inv in Hadd as (Hp & _ & ->). simpl.
    apply Forall_app. split; [done|]. by constructor.
  - simpl. apply Forall_forall. intros x [_ Hx]%list_elem_of_filter.
    by eapply Forall_forall in IH.
  - apply updateTaskStatus_Forall; [|done]. unfold priorityInRange. intros; lia.
  - apply updateTaskStatus_Forall; [|done]. unfold priorityInRange. intros; lia.
  - apply updateTaskStatus_Forall; [|done]. unfold priorityInRange. intros; lia.
  - unfold updateTask in Hupd. integers.
    destruct (negb _); [done|].
    destruct (TaskUpdate.priority u) as [p|] eqn:Hp;
      [destruct ((p <? 1) || (p >? 5)) eqn:Hrange; [done|]|];
      injection Hupd as <-; simpl.
    all: apply (Forall_map_impl priorityInRange); [|exact IH]; intros t Ht.
    all: case_decide; [|done]; unfold priorityInRange in *; simpl; lia.
  - unfold markMultipleCompleted. run.
    apply (Forall_map_impl priorityInRange); [|exact IH]. intros t Ht.
    by case_decide.
  - unfold updatePriorities in Hupd. integers.
    destruct ((prio <? 1) || (prio >? 5)) eqn:Hrange; [done|].
    injection Hupd as <-. simpl.
    apply (Forall_map_impl priorityInRange); [|exact IH]. intros t Ht.
    case_decide; [|done]. unfold priorityInRange. simpl. lia.
Qed.

Lemma reachable_priorityInRange (s : TaskState) :
  reachable s → Forall priorityInRange (tasks s).
Proof. apply reachableBy_priorityInRange. Qed.

(** The title half holds as long as no patch supplies a blank title:
    [updateTask] is the one operation that can break it. *)
Lemma reachableBy_titleNonEmpty (s : TaskState) :
  reachableBy keepsTitleNonEmpty s → Forall titleNonEmpty (tasks s).
Proof.
  induction 1 as [ | s ttl descr prio dl w s' w' _ IH Hadd | s taskId _ IH
                 | s taskId st w _ IH | s taskId w _ IH | s taskId w _ IH
                 | s taskId u s' _ IH Hu Hupd | s taskIds w _ IH
                 | s taskIds prio s' _ IH Hupd ].
  - constructor.
  - apply addTask_Normal_inv in Hadd as (_ & Ht & ->). simpl.
    apply Forall_app. split; [done|]. by constructor.
  - simpl. apply Forall_forall. intros x [_ Hx]%list_elem_of_filter.
    by eapply Forall_forall in IH.
  - apply updateTaskStatus_Forall; [|done]. unfold titleNonEmpty. congruence.
  - apply updateTaskStatus_Forall; [|done]. unfold titleNonEmpty. congruence.
  - apply updateTaskStatus_Forall; [|done]. unfold titleNonEmpty. congruence.
  - unfold updateTask in Hupd. integers.
    destruct (negb _); [done|].
    destruct (match TaskUpdate.priority u with Some _ => _ | None => _ end);
      [done|]. injection Hupd as <-. simpl.
    apply (Forall_map_impl titleNonEmpty); [|exact IH]. intros t Ht.
    case_decide; [|done]. unfold titleNonEmpty in *. simpl.
    destruct (TaskUpdate.title u) as [ttl|] eqn:Httl; [by apply Hu|done].
  - unfold markMultipleCompleted. run.
    apply (Forall_map_impl titleNonEmpty); [|exact IH]. intros t Ht.
    by case_decide.
  - unfold updatePriorities in Hupd. integers.
    destruct ((prio <? 1) || (prio >? 5)) eqn:Hrange; [done|].
    injection Hupd as <-. simpl.
    apply (Forall_map_impl titleNonEmpty); [|exact IH]. intros t Ht.
    by case_decide.
Qed.

(** C3. The code at the failing input: from the initial state, [addTask]
    with title "a" and then [updateTask] with a title of two spaces reach a
    state whose task has a title that is empty after trimming (its priority
    is within 1..5). *)
Theorem reachable_blank_title :
  ∃ s t, reachable s ∧ tasks s = [t]
         ∧ title t = JS.lit "  " ∧ JS.trim (title t) = []
         ∧ 1 ≤ priority t ≤ 5.
Proof.
  set (w0 := {| wallClock := λ n, 1000 + Z.of_nat n; clockReads := 0;
                uuidSource := λ _, JS.lit "a"; uuidDraws := 0 |}).
  set (t1 := {| id := JS.lit "a"; title := JS.lit "a"; description := [];
                priority := 3; status := Pending; createdAt := 1000;
                deadline := None; completedAt := None |}).
  set (t2 := {| id := JS.lit "a"; title := JS.lit "  "; description := [];
                priority := 3; status := Pending; createdAt := 1000;
                deadline := None; completedAt := None |}).
  exists {| tasks := [t2] |}, t2. split_and!; [|done..].
  eapply (reach_updateTask _ {| tasks := [t1] |} (JS.lit "a")
            {| TaskUpdate.title := Some (JS.lit "  ");
               TaskUpdate.description := None;
               TaskUpdate.priority := None;
               TaskUpdate.deadline := None |}); [|done|reflexivity].
  eapply (reach_addTask _ createInitialState (JS.lit "a") [] 3 None w0);
    [apply reach_init|reflexivity].
Qed.

(** * Further properties of the module *)

(** ** Lookup and removal *)

Lemma filter_Forall_id {A : Type} (P : A → Prop) `{!∀ x, Decision (P x)}
    (l : list A) :
  Forall P l → filter P l = l.
Proof.
  induction 1 as [|x l Hx _ IH]; [done|]. by rewrite filter_cons_True, IH.
Qed.

Lemma filter_Forall_nil {A : Type} (P : A → Prop) `{!∀ x, Decision (P x)}
    (l : list A) :
  Forall (λ x, ¬ P x) l → filter P l = [].
Proof.
  induction 1 as [|x l Hx _ IH]; [done|]. by rewrite filter_cons_False.
Qed.

Lemma find_id_app (taskId : JS.string) (before after : list Task) (t : Task) :
  Forall (λ x, id x ≠ taskId) before → id t = taskId →
  List.find (λ x, bool_decide (id x = taskId)) (before ++ t :: after) = Some t.
Proof.
  intros Hb Ht. induction Hb as [|x l Hx _ IH]; simpl.
  - by rewrite bool_decide_eq_true_2.
  - by rewrite bool_decide_eq_false_2.
Qed.

Lemma find_id_Some (taskId : JS.string) (l : list Task) (t : Task) :
  List.find (λ x, bool_decide (id x = taskId)) l = Some t →
  ∃ before after, l = before ++ t :: after ∧ id t = taskId
    ∧ Forall (λ x, id x ≠ taskId) before.
Proof.
  induction l as [|x l IH]; simpl; [done|]. case_bool_decide as Hx.
  - intros [= <-]. by exists [], l.
  - intros (b & a & -> & Ht & Hb)%IH. exists (x :: b), a.
    split_and!; [done|done|by constructor].
Qed.

Lemma find_id_None (taskId : JS.string) (l : list Task) :
  List.find (λ x, bool_decide (id x = taskId)) l = None
  ↔ Forall (λ x, id x ≠ taskId) l.
Proof.
  induction l as [|x l IH]; simpl; [done|]. case_bool_decide as Hx.
  - split; [done|]. by inversion 1.
  - rewrite IH, Forall_cons. tauto.
Qed.

Lemma getTask_absent (s : TaskState) (taskId : JS.string) :
  Forall (λ x, id x ≠ taskId) (tasks s) →
  getTask s taskId = Failure {| message := JS.lit "Task not found" |}.
Proof.
  intros H%find_id_None. unfold getTask. by rewrite H.
Qed.

Lemma getTask_first (s : TaskState) (taskId : JS.string)
    (before after : list Task) (t : Task) :
  tasks s = before ++ t :: after → id t = taskId →
  Forall (λ x, id x ≠ taskId) before →
  getTask s taskId = Ok t.
Proof.
  intros Hs Ht Hb. unfold getTask. by rewrite Hs, find_id_app.
Qed.

(** X1. [getTask] succeeds with [t] exactly when [t] is the first task of
    the state that has the identifier, and fails, with the message "Task not
    found", exactly when no task has it. *)
Theorem getTask_spec (s : TaskState) (taskId : JS.string) :
  (∀ t, getTask s taskId = Ok t
        ↔ ∃ before after, tasks s = before ++ t :: after ∧ id t = taskId
            ∧ Forall (λ x, id x ≠ taskId) before)
  ∧ (getTask s taskId = Failure {| message := JS.lit "Task not found" |}
     ↔ Forall (λ x, id x ≠ taskId) (tasks s))
  ∧ (∀ e, getTask s taskId = Failure e → message e = JS.lit "Task not found").
Proof.
  unfold getTask. split_and!.
  - intros t. split.
    + destruct (List.find _ (tasks s)) as [t'|] eqn:Hfind; [|done].
      intros [= ->]. by apply find_id_Some.
    + intros (b & a & -> & Ht & Hb). by rewrite find_id_app.
  - rewrite <-find_id_None. by destruct (List.find _ (tasks s)).
  - intros e. destruct (List.find _ (tasks s)); [done|]. by intros [= <-].
Qed.

Lemma find_id_filter_ne (taskId other : JS.string) (l : list Task) :
  other ≠ taskId →
  List.find (λ x, bool_decide (id x = other)) (filter (λ x, id x ≠ taskId) l)
  = List.find (λ x, bool_decide (id x = other)) l.
Proof.
  intros Hne. induction l as [|x l IH]; [done|].
  rewrite filter_cons. case_decide as Hx; simpl.
  - by rewrite IH.
  - rewrite bool_decide_eq_false_2; [done|].
    intros Hxo. congruence.
Qed.

(** X2. After [removeTask] no task has the identifier and [getTask] on it
    fails; what remains is the rest of the tasks in their order, and
    [getTask] on any other identifier answers as before. *)
Theorem removeTask_spec (s : TaskState) (taskId : JS.string) :
  Forall (λ t, id t ≠ taskId) (tasks (removeTask s taskId))
  ∧ tasks (removeTask s taskId) `sublist_of` tasks s
  ∧ (∀ t, t ∈ tasks s → id t ≠ taskId → t ∈ tasks (removeTask s taskId))
  ∧ getTask (removeTask s taskId) taskId
    = Failure {| message := JS.lit "Task not found" |}
  ∧ (∀ other, other ≠ taskId →
       getTask (removeTask s taskId) other = getTask s other).
Proof.
  assert (Forall (λ t, id t ≠ taskId) (tasks (removeTask s taskId))) as Hgone.
  { simpl. apply Forall_forall. by intros t [? _]%list_elem_of_filter. }
  split_and!; [done|apply sublist_filter| | |].
  - intros t Hin Hne. simpl. by apply list_elem_of_filter.
  - by apply getTask_absent.
  - intros other Hne. unfold getTask. simpl. by rewrite find_id_filter_ne.
Qed.

(** X3. [removeTask] with an identifier that no task has returns the state
    it was given. *)
Theorem removeTask_absent (s : TaskState) (taskId : JS.string) :
  Forall (λ t, id t ≠ taskId) (tasks s) → removeTask s taskId = s.
Proof.
  intros H. unfold removeTask. rewrite filter_Forall_id by done. by destruct s.
Qed.

Lemma removeTask_absent_witness :
  removeTask {| tasks := [exampleTask "a" 3 Pending None] |} (JS.lit "b")
  = {| tasks := [exampleTask "a" 3 Pending None] |}.
Proof.
  apply (removeTask_absent {| tasks := [exampleTask "a" 3 Pending None] |}
           (JS.lit "b")).
  by repeat constructor.
Defined.

(** ** addTask, then lookup or removal *)

(** X4. When the identifier drawn by [addTask] is not yet in the state,
    [getTask] on it finds the task just added, with the given title,
    description, priority and deadline, pending. *)
Theorem addTask_then_getTask (s : TaskState) (ttl descr : JS.string) (prio : Z)
    (dl : option Date) (w : World) (s' : TaskState) (w' : World) :
  addTask s ttl descr prio dl w = (Normal s', w') →
  Forall (λ t, id t ≠ uuidSource w (uuidDraws w)) (tasks s) →
  ∃ task, getTask s' (uuidSource w (uuidDraws w)) = Ok task
    ∧ title task = ttl ∧ description task = descr ∧ priority task = prio
    ∧ deadline task = dl ∧ status task = Pending ∧ completedAt task = None.
Proof.
  intros (_ & _ & ->)%addTask_Normal_inv Hfresh.
  eexists. split.
  - eapply getTask_first; [reflexivity|reflexivity|exact Hfresh].
  - by split_and!.
Qed.

Lemma addTask_then_getTask_witness :
  ∃ task,
    getTask {| tasks := [{| id := JS.lit "u0"; title := JS.lit " a ";
                            description := []; priority := 3;
                            status := Pending; createdAt := 1000;
                            deadline := Some 2000; completedAt := None |}] |}
            (JS.lit "u0") = Ok task
    ∧ title task = JS.lit " a " ∧ description task = [] ∧ priority task = 3
    ∧ deadline task = Some 2000 ∧ status task = Pending
    ∧ completedAt task = None.
Proof.
  apply (addTask_then_getTask createInitialState (JS.lit " a ") [] 3
           (Some 2000) exampleWorld _
           (addTask createInitialState (JS.lit " a ") [] 3 (Some 2000)
              exampleWorld).2).
  - reflexivity.
  - constructor.
Defined.

(** X5. When the identifier drawn by [addTask] is not yet in the state,
    removing it again gives back the state [addTask] started from. *)
Theorem addTask_then_removeTask (s : TaskState) (ttl descr : JS.string)
    (prio : Z) (dl : option Date) (w : World) (s' : TaskState) (w' : World) :
  addTask s ttl descr prio dl w = (Normal s', w') →
  Forall (λ t, id t ≠ uuidSource w (uuidDraws w)) (tasks s) →
  removeTask s' (uuidSource w (uuidDraws w)) = s.
Proof.
  intros (_ & _ & ->)%addTask_Normal_inv Hfresh.
  unfold removeTask. simpl. rewrite filter_app, filter_Forall_id by done.
  rewrite filter_cons_False by (by intros H; apply H).
  rewrite filter_nil, app_nil_r. by destruct s.
Qed.

Lemma addTask_then_removeTask_witness :
  removeTask
    {| tasks := [exampleTask "a" 3 Pending None;
                 {| id := JS.lit "u0"; title := JS.lit "b"; description := [];
                    priority := 5; status := Pending; createdAt := 1000;
                    deadline := None; completedAt := None |}] |}
    (JS.lit "u0")
  = {| tasks := [exampleTask "a" 3 Pending None] |}.
Proof.
  apply (addTask_then_removeTask
           {| tasks := [exampleTask "a" 3 Pending None] |}
           (JS.lit "b") [] 5 None exampleWorld _
           (addTask {| tasks := [exampleTask "a" 3 Pending None] |}
              (JS.lit "b") [] 5 None exampleWorld).2).
  - reflexivity.
  - by repeat constructor.
Defined.

(** ** Status changes, in general *)

Lemma mapA_setStatus_pure (taskId : JS.string) (st : TaskStatus)
    (l : list Task) (w : World) :
  st ≠ Completed →
  mapA (setStatus taskId st) l w
  = (map (λ t, if decide (id t = taskId) then withStatus t st else t) l, w).
Proof.
  intros Hst. induction l as [|x l IH]; simpl; [done|].
  run. unfold setStatus at 1. case_decide.
  - rewrite decide_False by done. run. by rewrite IH.
  - run. by rewrite IH.
Qed.

(** X6. [markInProgress] does not read the clock. Position by position, a
    task with the identifier comes back in progress with every other field,
    the completion timestamp included, as it was; the other tasks are
    returned as they are. *)
Theorem markInProgress_spec (s : TaskState) (taskId : JS.string) (w : World) :
  (markInProgress s taskId w).2 = w
  ∧ Forall2 (λ t t',
      if decide (id t = taskId) then t' = withStatus t InProgress else t' = t)
      (tasks s) (tasks (markInProgress s taskId w).1).
Proof.
  unfold markInProgress, updateTaskStatus. run.
  rewrite mapA_setStatus_pure by done. simpl. split; [done|].
  apply Forall2_map_diag. intros t. by case_decide.
Qed.

(** X7. A status change for an identifier that no task has returns the
    state it was given and does not read the clock, whatever the status. *)
Theorem updateTaskStatus_absent (s : TaskState) (taskId : JS.string)
    (st : TaskStatus) (w : World) :
  Forall (λ t, id t ≠ taskId) (tasks s) →
  updateTaskStatus s taskId st w = (s, w).
Proof.
  intros H. unfold updateTaskStatus. run.
  rewrite mapA_setStatus_other by done. by destruct s.
Qed.

Lemma updateTaskStatus_absent_witness :
  updateTaskStatus {| tasks := [exampleTask "a" 3 Pending None] |}
    (JS.lit "b") Completed exampleWorld
  = ({| tasks := [exampleTask "a" 3 Pending None] |}, exampleWorld).
Proof.
  apply (updateTaskStatus_absent
           {| tasks := [exampleTask "a" 3 Pending None] |} (JS.lit "b")
           Completed exampleWorld).
  by repeat constructor.
Defined.

Lemma mapA_cons {A B : Type} (f : A → M B) (x : A) (l : list A) (w : World) :
  mapA f (x :: l) w =
    let '(y, w1) := f x w in
    let '(ys, w2) := mapA f l w1 in (y :: ys, w2).
Proof. reflexivity. Qed.

Lemma setStatus_completed_match (taskId : JS.string) (x : Task) (w : World) :
  id x = taskId →
  setStatus taskId Completed x w
  = (completedTask x (wallClock w (clockReads w)), tick w).
Proof.
  intros Hx. unfold setStatus. by rewrite !decide_True by done.
Qed.

Lemma setStatus_other (taskId : JS.string) (st : TaskStatus) (x : Task)
    (w : World) :
  id x ≠ taskId → setStatus taskId st x w = (x, w).
Proof.
  intros Hx. unfold setStatus. by rewrite decide_False by done.
Qed.

Lemma mapA_setStatus_completed (taskId : JS.string) (l : list Task) (w : World) :
  let r := mapA (setStatus taskId Completed) l w in
  wallClock r.2 = wallClock w
  ∧ clockReads r.2
    = (clockReads w + length (filter (λ t, id t = taskId) l))%nat
  ∧ Forall2 (λ t t',
      if decide (id t = taskId) then
        ∃ n, (clockReads w ≤ n < clockReads r.2)%nat
             ∧ t' = completedTask t (wallClock w n)
      else t' = t) l r.1.
Proof.
  revert w. induction l as [|x l IH]; intros w r; subst r.
  { simpl. split_and!; [done|by rewrite Nat.add_0_r|constructor]. }
  rewrite mapA_cons, filter_cons.
  destruct (decide (id x = taskId)) as [Hx|Hx].
  - rewrite setStatus_completed_match by done.
    specialize (IH (tick w)).
    destruct (mapA (setStatus taskId Completed) l (tick w)) as [ys w1].
    simpl in *. destruct IH as (Hclock & Hreads & Hall).
    split_and!; [done|lia|]. constructor.
    + rewrite decide_True by done. exists (clockReads w). split; [lia|done].
    + eapply Forall2_impl; [exact Hall|]. intros t t'. simpl.
      case_decide; [|done]. intros (n & Hn & ->). exists n. split; [lia|done].
  - rewrite setStatus_other by done. specialize (IH w).
    destruct (mapA (setStatus taskId Completed) l w) as [ys w1].
    simpl in *. destruct IH as (Hclock & Hreads & Hall).
    split_and!; [done|lia|]. constructor; [by rewrite decide_False|done].
Qed.

(** X8. [markCompleted] reads the clock once for each task that has the
    identifier. Position by position, such a task comes back completed at
    one of the readings of this call, whatever its status was, with its
    other fields as they were; the other tasks are returned as they are. *)
Theorem markCompleted_spec (s : TaskState) (taskId : JS.string) (w : World) :
  let r := markCompleted s taskId w in
  clockReads r.2
  = (clockReads w + length (filter (λ t, id t = taskId) (tasks s)))%nat
  ∧ Forall2 (λ t t',
      if decide (id t = taskId) then
        ∃ n, (clockReads w ≤ n < clockReads r.2)%nat
             ∧ t' = completedTask t (wallClock w n)
      else t' = t) (tasks s) (tasks r.1).
Proof.
  intros r. subst r. unfold markCompleted, updateTaskStatus. run.
  pose proof (mapA_setStatus_completed taskId (tasks s) w) as H.
  destruct (mapA (setStatus taskId Completed) (tasks s) w) as [ys w1].
  simpl in *. tauto.
Qed.

(** ** What every reachable state keeps *)

Lemma mapA_Forall {A : Type} (P : A → Prop) (f : A → M A) (l : list A)
    (w : World) :
  (∀ x w, P x → P (f x w).1) → Forall P l → Forall P (mapA f l w).1.
Proof.
  intros Hf Hl. revert w. induction Hl as [|x l Hx _ IH]; intros w.
  { constructor. }
  rewrite mapA_cons. specialize (Hf x w Hx). destruct (f x w) as [y w1].
  specialize (IH w1). destruct (mapA f l w1) as [ys w2]. by constructor.
Qed.

Lemma setStatus_completedHasTimestamp (taskId : JS.string) (st : TaskStatus)
    (t : Task) (w : World) :
  completedHasTimestamp t → completedHasTimestamp (setStatus taskId st t w).1.
Proof.
  intros Ht. unfold setStatus. case_decide; [|done].
  case_decide; run; unfold completedHasTimestamp; simpl; [by eexists|done].
Qed.

Lemma reachableBy_completedHasTimestamp (allowed : TaskUpdate.t → Prop)
    (s : TaskState) :
  reachableBy allowed s → Forall completedHasTimestamp (tasks s).
Proof.
  induction 1 as [ | s ttl descr prio dl w s' w' _ IH Hadd | s taskId _ IH
                 | s taskId st w _ IH | s taskId w _ IH | s taskId w _ IH
                 | s taskId u s' _ IH _ Hupd | s taskIds w _ IH
                 | s taskIds prio s' _ IH Hupd ].
  - constructor.
  - apply addTask_Normal_inv in Hadd as (_ & _ & ->). simpl.
    apply Forall_app. split; [done|]. by constructor.
  - simpl. apply Forall_forall. intros x [_ Hx]%list_elem_of_filter.
    by eapply Forall_forall in IH.
  - unfold updateTaskStatus. run.
    pose proof (mapA_Forall completedHasTimestamp (setStatus taskId st)
                  (tasks s) w (setStatus_completedHasTimestamp taskId st) IH).
    by destruct (mapA _ (tasks s) w).
  - unfold markInProgress, updateTaskStatus. run.
    pose proof (mapA_Forall completedHasTimestamp (setStatus taskId InProgress)
                  (tasks s) w (setStatus_completedHasTimestamp taskId _) IH).
    by destruct (mapA _ (tasks s) w).
  - unfold markCompleted, updateTaskStatus. run.
    pose proof (mapA_Forall completedHasTimestamp (setStatus taskId Completed)
                  (tasks s) w (setStatus_completedHasTimestamp taskId _) IH).
    by destruct (mapA _ (tasks s) w).
  - unfold updateTask in Hupd. integers.
    destruct (negb _); [done|].
    destruct (match TaskUpdate.priority u with Some _ => _ | None => _ end);
      [done|]. injection Hupd as <-. simpl.
    apply (Forall_map_impl completedHasTimestamp); [|exact IH]. intros t Ht.
    by case_decide.
  - unfold markMultipleCompleted. run.
    apply (Forall_map_impl completedHasTimestamp); [|exact IH]. intros t Ht.
    case_decide; [|done]. unfold completedHasTimestamp. simpl. by eexists.
  - unfold updatePriorities in Hupd. integers.
    destruct ((prio <? 1) || (prio >? 5)) eqn:Hrange; [done|].
    injection Hupd as <-. simpl.
    apply (Forall_map_impl completedHasTimestamp); [|exact IH]. intros t Ht.
    by case_decide.
Qed.

(** X9. In every reachable state a completed task has a completion
    timestamp. The converse is not kept: a task that was completed and then
    marked in progress is reachable, in progress with its timestamp still
    there. *)
Theorem completed_tasks_have_timestamp :
  (∀ s, reachable s → Forall completedHasTimestamp (tasks s))
  ∧ (∃ s t, reachable s ∧ t ∈ tasks s
            ∧ status t = InProgress ∧ is_Some (completedAt t)).
Proof.
  split; [intros s; apply reachableBy_completedHasTimestamp|].
  set (t0 := {| id := JS.lit "u0"; title := JS.lit "a"; description := [];
                priority := 3; status := Pending; createdAt := 1000;
                deadline := None; completedAt := None |}).
  assert (reachable {| tasks := [t0] |}) as H0.
  { eapply (reach_addTask _ createInitialState (JS.lit "a") [] 3 None
              exampleWorld); [apply reach_init|reflexivity]. }
  pose proof (reach_markCompleted _ _ (JS.lit "u0") exampleWorld H0) as H1.
  pose proof (reach_markInProgress _ _ (JS.lit "u0") exampleWorld H1) as H2.
  eexists _, (withStatus (completedTask t0 1000) InProgress).
  split; [exact H2|]. split; [vm_compute; left|]. split; [done|by eexists].
Qed.

Lemma Forall2_map_eq {A B : Type} (f : A → B) (l k : list A) :
  Forall2 (λ a b, f b = f a) l k → map f k = map f l.
Proof.
  induction 1 as [|a b l k Hab _ IH]; simpl; [done|]. by rewrite Hab, IH.
Qed.

(** X10. The operations that change tasks keep their identifiers and
    creation times, position by position: a status change, a successful
    patch, a batch completion and a successful priority update return as
    many tasks, in the same order, each with the identifier and the creation
    time it had. *)
Theorem identity_preserved (s : TaskState) :
  let key := λ t : Task, (id t, createdAt t) in
  (∀ taskId st w,
     map key (tasks (updateTaskStatus s taskId st w).1) = map key (tasks s))
  ∧ (∀ taskId taskUpdate s',
       updateTask s taskId taskUpdate = Ok s' →
       map key (tasks s') = map key (tasks s))
  ∧ (∀ taskIds w,
       map key (tasks (markMultipleCompleted s taskIds w).1) = map key (tasks s))
  ∧ (∀ taskIds newPriority s',
       updatePriorities s taskIds newPriority = Ok s' →
       map key (tasks s') = map key (tasks s)).
Proof.
  intros key. split_and!.
  - intros taskId st w. unfold updateTaskStatus. run.
    pose proof (mapA_Forall2 (λ t t', key t' = key t) (setStatus taskId st)
                  (tasks s)) as H.
    specialize (H ltac:(intros x w0; unfold setStatus; case_decide; [|done];
                        by case_decide) w).
    destruct (mapA _ (tasks s) w) as [ys w1]. simpl in *.
    by apply Forall2_map_eq.
  - intros taskId u s' Hupd. unfold updateTask in Hupd. integers.
    destruct (negb _); [done|].
    destruct (match TaskUpdate.priority u with Some _ => _ | None => _ end);
      [done|]. injection Hupd as <-. simpl.
    apply Forall2_map_eq, Forall2_map_diag. intros t. by case_decide.
  - intros taskIds w. unfold markMultipleCompleted. run.
    apply Forall2_map_eq, Forall2_map_diag. intros t. by case_decide.
  - intros taskIds p s' Hupd. unfold updatePriorities in Hupd. integers.
    destruct ((p <? 1) || (p >? 5)); [done|]. injection Hupd as <-. simpl.
    apply Forall2_map_eq, Forall2_map_diag. intros t. by case_decide.
Qed.

(** ** The batch operations *)

(** X11. [updatePriorities] fails, with the message "Priority must be
    between 1 and 5", exactly when the new priority is a number below 1 or
    above 5, and no state comes back. Otherwise, and so for NaN, which
    neither comparison catches, it succeeds and, position by position, a
    task whose identifier is among [taskIds] comes back with the new
    priority and its other fields as they were, and any other task as it
    is. Identifiers that no task has are ignored. *)
Theorem updatePriorities_spec (s : TaskStateOf JS.number)
    (taskIds : list JS.string) (newPriority : JS.number) :
  let r := updatePriorities s taskIds newPriority in
  ((∃ e, r = Failure e) ↔ refusedPriority newPriority)
  ∧ (∀ e, r = Failure e → message e = JS.lit "Priority must be between 1 and 5")
  ∧ (refusedPriority newPriority
     ∨ ∃ s', r = Ok s'
         ∧ Forall2 (λ t t',
             if decide (id t ∈ taskIds) then t' = withPriority t newPriority
             else t' = t) (tasks s) (tasks s')).
Proof.
  intros r. subst r. unfold updatePriorities.
  destruct (lessThan newPriority (literal 1)
            || greaterThan newPriority (literal 5)) eqn:Hrange.
  - assert (refusedPriority newPriority) as Href.
    { destruct newPriority as [z|]; [|done]. exists z. split; [done|].
      cbn in Hrange. lia. }
    split_and!; [split; [done|by eexists]|by intros e [= <-]|by left].
  - assert (¬ refusedPriority newPriority) as Href.
    { intros (z & -> & Hz). cbn in Hrange. lia. }
    split_and!; [split; [by intros [? ?]|done]|done|].
    right. eexists. split; [done|]. simpl.
    apply Forall2_map_diag. intros t.
    destruct (decide (id t ∈ taskIds)) as [Hin|Hin].
    + rewrite decide_True; [done|]. by apply elem_of_list_to_set.
    + rewrite decide_False; [done|]. by rewrite elem_of_list_to_set.
Qed.

(** X12. The batch operations look at their array of identifiers as a set:
    two arrays with the same members, in any order and with any
    repetitions, give the same result. *)
Theorem batch_ids_as_set (s : TaskState) (ids1 ids2 : list JS.string) :
  (∀ x, x ∈ ids1 ↔ x ∈ ids2) →
  (∀ w, markMultipleCompleted s ids1 w = markMultipleCompleted s ids2 w)
  ∧ (∀ p, updatePriorities s ids1 p = updatePriorities s ids2 p).
Proof.
  intros Hsame.
  assert (list_to_set ids1 = (list_to_set ids2 : gset JS.string)) as Hset.
  { apply set_eq. intros x. by rewrite !elem_of_list_to_set. }
  split.
  - intros w. unfold markMultipleCompleted. by rewrite Hset.
  - intros p. unfold updatePriorities. integers. by rewrite Hset.
Qed.

Lemma batch_ids_as_set_witness :
  let s := {| tasks := [exampleTask "a" 3 Pending None;
                        exampleTask "b" 2 InProgress None;
                        exampleTask "c" 1 Pending None] |} in
  let ids1 := [JS.lit "b"; JS.lit "a"; JS.lit "b"] in
  let ids2 := [JS.lit "a"; JS.lit "b"] in
  (∀ w, markMultipleCompleted s ids1 w = markMultipleCompleted s ids2 w)
  ∧ (∀ p, updatePriorities s ids1 p = updatePriorities s ids2 p).
Proof.
  intros s ids1 ids2. apply (batch_ids_as_set s ids1 ids2).
  intros x. subst ids1 ids2. rewrite !elem_of_cons, !elem_of_nil. tauto.
Defined.

Lemma withPriority_twice (t : Task) (p : Z) :
  withPriority (withPriority t p) p = withPriority t p.
Proof. done. Qed.

(** X13. A successful [updatePriorities] applied again to its own result,
    with the same identifiers and priority, succeeds with that result. *)
Theorem updatePriorities_idempotent (s : TaskState) (taskIds : list JS.string)
    (newPriority : Z) (s1 : TaskState) :
  updatePriorities s taskIds newPriority = Ok s1 →
  updatePriorities s1 taskIds newPriority = Ok s1.
Proof.
  unfold updatePriorities. integers.
  destruct ((newPriority <? 1) || (newPriority >? 5)); [done|].
  intros [= <-]. simpl. do 2 f_equal. rewrite map_map. apply map_ext.
  intros t. by repeat (case_decide; simpl in * ).
Qed.

Lemma updatePriorities_idempotent_witness :
  updatePriorities
    {| tasks := [withPriority (exampleTask "a" 3 Pending None) 5;
                 exampleTask "b" 2 InProgress None] |}
    [JS.lit "a"] 5
  = Ok {| tasks := [withPriority (exampleTask "a" 3 Pending None) 5;
                    exampleTask "b" 2 InProgress None] |}.
Proof.
  apply (updatePriorities_idempotent
           {| tasks := [exampleTask "a" 3 Pending None;
                        exampleTask "b" 2 InProgress None] |}
           [JS.lit "a"] 5).
  reflexivity.
Defined.

(** X14. [markMultipleCompleted] applied to its own result with the same
    identifiers changes nothing, however far the clock has moved: the tasks
    completed by the first call keep the timestamp of the first call. *)
Theorem markMultipleCompleted_idempotent (s : TaskState)
    (taskIds : list JS.string) (w w2 : World) :
  (markMultipleCompleted (markMultipleCompleted s taskIds w).1 taskIds w2).1
  = (markMultipleCompleted s taskIds w).1.
Proof.
  unfold markMultipleCompleted. run. f_equal. rewrite map_map.
  apply map_ext. intros t.
  destruct (decide (id t ∈ (list_to_set taskIds : gset JS.string)
                    ∧ status t ≠ Completed)) as [[Hin Hst]|Hno].
  - rewrite decide_False; [done|]. simpl. by intros [_ ?].
  - by rewrite decide_False.
Qed.

(** X15. When every task named in [taskIds] is already completed (or no
    task is named, as with an empty array), [markMultipleCompleted] returns
    the state it was given; the clock is read all the same. *)
Theorem markMultipleCompleted_nothing_to_do (s : TaskState)
    (taskIds : list JS.string) (w : World) :
  Forall (λ t, id t ∈ taskIds → status t = Completed) (tasks s) →
  markMultipleCompleted s taskIds w = (s, tick w).
Proof.
  intros Hall. unfold markMultipleCompleted. run. unfold tick.
  f_equal. destruct s as [l]. simpl in *. f_equal.
  induction Hall as [|t l Ht _ IH]; simpl; [done|]. rewrite IH.
  rewrite decide_False; [done|].
  intros [Hin%elem_of_list_to_set Hst]. by apply Hst, Ht.
Qed.

Lemma markMultipleCompleted_nothing_to_do_witness :
  markMultipleCompleted
    {| tasks := [exampleTask "a" 3 Completed None;
                 exampleTask "b" 2 Pending None] |}
    [JS.lit "a"; JS.lit "z"] exampleWorld
  = ({| tasks := [exampleTask "a" 3 Completed None;
                  exampleTask "b" 2 Pending None] |}, tick exampleWorld).
Proof.
  apply (markMultipleCompleted_nothing_to_do
           {| tasks := [exampleTask "a" 3 Completed None;
                        exampleTask "b" 2 Pending None] |}
           [JS.lit "a"; JS.lit "z"] exampleWorld).
  repeat constructor.
  intros H. exfalso. revert H.
  rewrite !elem_of_cons, elem_of_nil. by intros [?|[?|?]].
Defined.

(** X16. For the one task that has the identifier, not yet completed,
    [markMultipleCompleted] with that identifier alone and [markCompleted]
    do the same: same state, same single reading of the clock. *)
Theorem markMultipleCompleted_single (s : TaskState) (l1 l2 : list Task)
    (t : Task) (w : World) :
  tasks s = l1 ++ t :: l2 →
  Forall (λ x, id x ≠ id t) l1 → Forall (λ x, id x ≠ id t) l2 →
  status t ≠ Completed →
  markMultipleCompleted s [id t] w = markCompleted s (id t) w.
Proof.
  intros Hs H1 H2 Hst. rewrite (markCompleted_stamps s l1 l2 t w) by done.
  unfold markMultipleCompleted. run. unfold tick. f_equal. f_equal.
  assert (∀ l, Forall (λ x, id x ≠ id t) l →
            map (λ task,
              if decide (id task ∈ (list_to_set [id t] : gset JS.string)
                         ∧ status task ≠ Completed)
              then completedTask task (wallClock w (clockReads w))
              else task) l = l) as Hother.
  { induction 1 as [|x l Hx _ IH]; simpl; [done|].
    rewrite decide_False; [f_equal; exact IH|].
    intros [Hin _]. apply elem_of_union in Hin as [Hin|Hin].
    - by apply elem_of_singleton in Hin.
    - by apply elem_of_empty in Hin. }
  rewrite Hs, map_app. simpl. rewrite decide_True by (split; [set_solver|done]).
  unfold completedTask in Hother. by rewrite !Hother.
Qed.

Lemma markMultipleCompleted_single_witness :
  markMultipleCompleted
    {| tasks := [exampleTask "a" 3 Pending None;
                 exampleTask "b" 2 InProgress None] |}
    [id (exampleTask "b" 2 InProgress None)] exampleWorld
  = markCompleted
      {| tasks := [exampleTask "a" 3 Pending None;
                   exampleTask "b" 2 InProgress None] |}
      (id (exampleTask "b" 2 InProgress None)) exampleWorld.
Proof.
  apply (markMultipleCompleted_single _ [exampleTask "a" 3 Pending None] []
           (exampleTask "b" 2 InProgress None) exampleWorld).
  - reflexivity.
  - by repeat constructor.
  - constructor.
  - done.
Defined.

(** ** The two sorts *)

Lemma sort_sorted_id {A : Type} (key : A → Z) (comparefn : A → A → Z)
    (l : list A) :
  (∀ a b, comparefn a b ≤ 0 ↔ key a ≤ key b) →
  StronglySorted (λ a b, key a ≤ key b) l → sort comparefn l = l.
Proof.
  intros Hcmp Hs. symmetry. by apply (sort_unique key comparefn Hcmp).
Qed.

Lemma sortByPriority_sorted (ts : list Task) :
  StronglySorted (λ a b, - priority a ≤ - priority b) (sortByPriority ts).
Proof.
  apply (sort_sorted (λ t, - priority t)). intros a b. lia.
Qed.

(** X17. [sortByPriority] returns a permutation of its input in descending
    order of priority, and tasks of equal priority keep the order the input
    has them in. *)
Theorem sortByPriority_spec (ts : list Task) :
  sortByPriority ts ≡ₚ ts
  ∧ StronglySorted (λ a b, priority b ≤ priority a) (sortByPriority ts)
  ∧ ∀ p, filter (λ t, priority t = p) (sortByPriority ts)
         = filter (λ t, priority t = p) ts.
Proof.
  split_and!.
  - apply sort_Permutation.
  - eapply (StronglySorted_Forall_impl _ _ (λ _, True));
      [|by apply Forall_true|apply sortByPriority_sorted].
    intros a b _ _. simpl. lia.
  - intros p.
    rewrite (list_filter_iff (λ t, priority t = p) (λ t, - priority t = - p))
      by (intros; lia).
    rewrite (list_filter_iff (λ t, priority t = p) (λ t, - priority t = - p) ts)
      by (intros; lia).
    apply (sort_stable (λ t, - priority t)). intros a b. lia.
Qed.

Lemma sortByDeadline_dated (ts : list Task) :
  let dated :=
    sort (λ a b, deadlineTime 0 a - deadlineTime 0 b)
         (filter (λ task, deadline task ≠ None) ts) in
  Forall (λ task, deadline task ≠ None) dated
  ∧ StronglySorted (λ a b, deadlineTime 0 a ≤ deadlineTime 0 b) dated.
Proof.
  intros dated. split.
  - apply Forall_forall. intros t Ht. subst dated.
    rewrite sort_Permutation in Ht. by apply list_elem_of_filter in Ht as [? _].
  - apply (sort_sorted (deadlineTime 0)). intros a b. lia.
Qed.

(** X18. Sorting what is already sorted changes nothing: [sortByPriority]
    and [sortByDeadline] applied to their own result return it. *)
Theorem sorts_idempotent (ts : list Task) :
  sortByPriority (sortByPriority ts) = sortByPriority ts
  ∧ sortByDeadline (sortByDeadline ts) = sortByDeadline ts.
Proof.
  split.
  - apply (sort_sorted_id (λ t, - priority t)); [intros; lia|].
    apply sortByPriority_sorted.
  - unfold sortByDeadline at 1.
    destruct (sortByDeadline_dated ts) as [Hdated Hsorted].
    unfold sortByDeadline. simpl in *.
    set (cmp := λ a b : Task, deadlineTime 0 a - deadlineTime 0 b) in *.
    set (dated := sort cmp (filter (λ task, deadline task ≠ None) ts)) in *.
    set (undated := filter (λ task, deadline task = None) ts).
    assert (Forall (λ task, deadline task = None) undated) as Hundated.
    { apply Forall_forall. by intros t [? _]%list_elem_of_filter. }
    rewrite !filter_app.
    rewrite (filter_Forall_id _ dated) by done.
    rewrite (filter_Forall_nil (λ task, deadline task ≠ None) undated).
    2:{ eapply Forall_impl; [exact Hundated|]. simpl. intros t Ht Hn. done. }
    rewrite (filter_Forall_nil (λ task, deadline task = None) dated) by done.
    rewrite (filter_Forall_id _ undated) by done.
    rewrite app_nil_r. simpl. f_equal.
    apply (sort_sorted_id (deadlineTime 0)); [intros; unfold cmp; lia|done].
Qed.

(** X19. [getNextTaskByDeadline] returns, when some pending task has a
    deadline, the pending task of earliest deadline, the first of them in
    the state's order when several share it; when tasks are pending but
    none has a deadline, the first pending task; and [None] when no task is
    pending. *)
Theorem getNextTaskByDeadline_spec (s : TaskState) :
  ((∃ x, x ∈ tasks s ∧ status x = Pending ∧ deadline x ≠ None) →
   ∃ t d before after,
     getNextTaskByDeadline s = Some t
     ∧ tasks s = before ++ t :: after
     ∧ status t = Pending ∧ deadline t = Some d
     ∧ Forall (λ x, status x = Pending →
                    ∀ d', deadline x = Some d' → d < d') before
     ∧ Forall (λ x, status x = Pending →
                    ∀ d', deadline x = Some d' → d ≤ d') after)
  ∧ ((∃ x, x ∈ tasks s ∧ status x = Pending) →
     (∀ x, x ∈ tasks s → status x = Pending → deadline x = None) →
     ∃ t before after,
       getNextTaskByDeadline s = Some t
       ∧ tasks s = before ++ t :: after
       ∧ status t = Pending
       ∧ Forall (λ x, status x ≠ Pending) before)
  ∧ ((∀ x, x ∈ tasks s → status x ≠ Pending) →
     getNextTaskByDeadline s = None).
Proof.
  unfold getNextTaskByDeadline, getPendingTasks, getTasksByStatus, sortByDeadline.
  set (cmp := λ a b : Task, deadlineTime 0 a - deadlineTime 0 b).
  set (pendingTasks := filter (λ task, status task = Pending) (tasks s)).
  assert (∀ a b, cmp a b ≤ 0 ↔ deadlineTime 0 a ≤ deadlineTime 0 b) as Hcmp
    by (intros; unfold cmp; lia).
  split_and!.
  - intros (x & Hx & Hp & Hd).
    destruct (sort cmp (filter (λ task, deadline task ≠ None) pendingTasks))
      as [|t rest] eqn:Hsort.
    { apply sort_nil_inv in Hsort.
      assert (x ∈ filter (λ task, deadline task ≠ None) pendingTasks) as Hin.
      { apply list_elem_of_filter. split; [done|].
        by apply list_elem_of_filter. }
      rewrite Hsort in Hin. by apply elem_of_nil in Hin. }
    apply (sort_head (deadlineTime 0) cmp Hcmp) in Hsort
      as (l1 & l2 & Hsplit & H1 & H2).
    unfold pendingTasks in Hsplit. rewrite list_filter_filter in Hsplit.
    apply filter_eq_app_cons_inv in Hsplit as (b & a & Hs & <- & [Htd Htp] & <-).
    destruct (deadline t) as [d|] eqn:Hdt; [|done].
    exists t, d, b, a. split_and!; [done..| |].
    + apply Forall_forall. intros y Hy Hpy d' Hd'.
      eapply Forall_forall in H1.
      2:{ apply list_elem_of_filter. split; [|exact Hy]. split; [|done].
          by rewrite Hd'. }
      unfold deadlineTime, getTime in H1. by rewrite Hdt, Hd' in H1.
    + apply Forall_forall. intros y Hy Hpy d' Hd'.
      eapply Forall_forall in H2.
      2:{ apply list_elem_of_filter. split; [|exact Hy]. split; [|done].
          by rewrite Hd'. }
      unfold deadlineTime, getTime in H2. by rewrite Hdt, Hd' in H2.
  - intros (x & Hx & Hp) Hnone.
    assert (Forall (λ task, deadline task = None) pendingTasks) as Hund.
    { apply Forall_forall. intros t [Ht Hin]%list_elem_of_filter. by apply Hnone. }
    rewrite (filter_Forall_nil (λ task, deadline task ≠ None) pendingTasks).
    2:{ eapply Forall_impl; [exact Hund|]. simpl. intros t Ht Hn. done. }
    rewrite (filter_Forall_id _ pendingTasks) by done. simpl.
    destruct pendingTasks as [|t r] eqn:Hpend.
    { assert (x ∈ pendingTasks) as Hin by by apply list_elem_of_filter.
      rewrite Hpend in Hin. by apply elem_of_nil in Hin. }
    apply filter_eq_cons_inv in Hpend as (b & a & Hs & Hb & Ht & _).
    by exists t, b, a.
  - intros Hnone.
    replace pendingTasks with (@nil Task); [done|].
    symmetry. apply filter_Forall_nil, Forall_forall. intros t Ht. by apply Hnone.
Qed.

Lemma getNextTaskByDeadline_spec_witness :
  let s := {| tasks := [exampleTask "a" 5 Pending None;
                        exampleTask "b" 1 Completed (Some 100);
                        exampleTask "c" 2 Pending (Some 300);
                        exampleTask "d" 3 Pending (Some 200);
                        exampleTask "e" 4 Pending (Some 200)] |} in
  getNextTaskByDeadline s = Some (exampleTask "d" 3 Pending (Some 200))
  ∧ ∃ t d before after,
      getNextTaskByDeadline s = Some t
      ∧ tasks s = before ++ t :: after
      ∧ status t = Pending ∧ deadline t = Some d
      ∧ Forall (λ x, status x = Pending →
                     ∀ d', deadline x = Some d' → d < d') before
      ∧ Forall (λ x, status x = Pending →
                     ∀ d', deadline x = Some d' → d ≤ d') after.
Proof.
  intros s. split; [reflexivity|].
  apply (proj1 (getNextTaskByDeadline_spec s)).
  exists (exampleTask "c" 2 Pending (Some 300)).
  split; [right; right; left|done].
Defined.

(** ** composition.ts *)

Lemma Composition_take_nonneg {T : Type} (n : Z) (items : list T) :
  0 ≤ n → Composition.take n items = firstn (Z.to_nat n) items.
Proof.
  intros Hn. unfold Composition.take.
  destruct (Z.ltb_spec n 0) as [|_]; [lia|].
  destruct (decide (n ≤ Z.of_nat (length items))) as [Hle|Hgt].
  - by rewrite Z.min_l.
  - rewrite Z.min_r, Nat2Z.id by lia.
    rewrite !firstn_all2; [done|lia|done].
Qed.

Lemma Composition_take_negative {T : Type} (n : Z) (items : list T) :
  n < 0 →
  Composition.take n items = firstn (length items - Z.to_nat (- n)) items.
Proof.
  intros Hn. unfold Composition.take.
  destruct (Z.ltb_spec n 0) as [_|]; [|lia]. f_equal. lia.
Qed.

(** X20. [take(n)] returns a prefix of the array. For [n] at least 0 the
    prefix has [n] items, or all of them when there are fewer; for a
    negative [n] it is not empty in general: the last [-n] items are left
    out (all of them when there are fewer). *)
Theorem Composition_take_spec {T : Type} (n : Z) (items : list T) :
  ∃ skipped,
    items = Composition.take n items ++ skipped
    ∧ (0 ≤ n →
       length (Composition.take n items)
       = Nat.min (Z.to_nat n) (length items))
    ∧ (n < 0 → length skipped = Nat.min (Z.to_nat (- n)) (length items)).
Proof.
  destruct (decide (0 ≤ n)) as [Hn|Hn].
  - rewrite Composition_take_nonneg by done.
    exists (skipn (Z.to_nat n) items).
    split_and!; [by rewrite firstn_skipn|by rewrite length_take|lia].
  - rewrite Composition_take_negative by lia.
    exists (skipn (length items - Z.to_nat (- n)) items).
    split_and!; [by rewrite firstn_skipn|lia|].
    intros _. rewrite length_drop. lia.
Qed.

(** X21. For [n] at least 0, [getTopPriorityTasks] returns the first [n]
    (or all, when there are fewer) of the pending tasks sorted by priority:
    they are pending tasks of the state, in descending order of priority,
    and no pending task left out has a higher priority than a task
    returned. *)
Theorem getTopPriorityTasks_spec (s : TaskState) (n : Z) :
  0 ≤ n →
  let r := Composition.getTopPriorityTasks s n in
  ∃ rest,
    sortByPriority (getPendingTasks s) = r ++ rest
    ∧ length r = Nat.min (Z.to_nat n) (length (getPendingTasks s))
    ∧ Forall (λ t, t ∈ tasks s ∧ status t = Pending) r
    ∧ StronglySorted (λ a b, priority b ≤ priority a) r
    ∧ Forall (λ t, Forall (λ x, priority x ≤ priority t) rest) r.
Proof.
  intros Hn r. subst r.
  unfold Composition.getTopPriorityTasks, Composition.fpPipe.
  rewrite Composition_take_nonneg by done.
  set (sorted := sortByPriority (getPendingTasks s)).
  exists (skipn (Z.to_nat n) sorted).
  assert (sorted ≡ₚ getPendingTasks s) as Hperm by apply sort_Permutation.
  pose proof (sortByPriority_sorted (getPendingTasks s)) as Hsorted.
  fold sorted in Hsorted.
  rewrite <-(firstn_skipn (Z.to_nat n) sorted) in Hsorted.
  apply StronglySorted_app in Hsorted as (Hcross & Hl & _).
  split_and!.
  - by rewrite firstn_skipn.
  - by rewrite length_take, Hperm.
  - apply Forall_forall. intros t Ht.
    assert (t ∈ sorted) as Hin.
    { rewrite <-(firstn_skipn (Z.to_nat n) sorted). apply elem_of_app. by left. }
    rewrite Hperm in Hin.
    apply list_elem_of_filter in Hin as [? ?]. done.
  - eapply (StronglySorted_Forall_impl _ _ (λ _, True));
      [|by apply Forall_true|exact Hl].
    intros a b _ _. simpl. lia.
  - apply Forall_forall. intros t Ht. apply Forall_forall. intros x Hx.
    specialize (Hcross t x Ht Hx). simpl in Hcross. lia.
Qed.

Lemma getTopPriorityTasks_spec_witness :
  let s := {| tasks := [exampleTask "a" 3 Pending None;
                        exampleTask "b" 5 Completed None;
                        exampleTask "c" 5 Pending None;
                        exampleTask "d" 1 Pending None] |} in
  let r := Composition.getTopPriorityTasks s 2 in
  r = [exampleTask "c" 5 Pending None; exampleTask "a" 3 Pending None]
  ∧ ∃ rest,
      sortByPriority (getPendingTasks s) = r ++ rest
      ∧ length r = Nat.min (Z.to_nat 2) (length (getPendingTasks s))
      ∧ Forall (λ t, t ∈ tasks s ∧ status t = Pending) r
      ∧ StronglySorted (λ a b, priority b ≤ priority a) r
      ∧ Forall (λ t, Forall (λ x, priority x ≤ priority t) rest) r.
Proof.
  intros s r. split; [reflexivity|].
  apply (getTopPriorityTasks_spec s 2). lia.
Defined.

Lemma head_firstn_S {T : Type} (k : nat) (l : list T) :
  head (firstn (S k) l) = head l.
Proof. by destruct l. Qed.

(** X22. Asked for at least one task, [getTopPriorityTasks] and
    [getNextTasksByDeadline] start with the task that [getNextTask] and
    [getNextTaskByDeadline] return (and are empty when these return
    [None]). *)
Theorem next_task_is_first_of_top (s : TaskState) (n : Z) :
  1 ≤ n →
  head (Composition.getTopPriorityTasks s n) = getNextTask s
  ∧ head (Composition.getNextTasksByDeadline s n) = getNextTaskByDeadline s.
Proof.
  intros Hn.
  unfold Composition.getTopPriorityTasks, Composition.getNextTasksByDeadline,
    Composition.fpPipe, getNextTask, getNextTaskByDeadline.
  rewrite !Composition_take_nonneg by lia.
  replace (Z.to_nat n) with (S (Z.to_nat (n - 1))) by lia.
  by rewrite !head_firstn_S.
Qed.

Lemma next_task_is_first_of_top_witness :
  let s := {| tasks := [exampleTask "a" 3 Pending None;
                        exampleTask "c" 5 Pending (Some 50);
                        exampleTask "d" 1 Pending (Some 40)] |} in
  head (Composition.getTopPriorityTasks s 2) = getNextTask s
  ∧ head (Composition.getNextTasksByDeadline s 2) = getNextTaskByDeadline s.
Proof.
  intros s. apply (next_task_is_first_of_top s 2). lia.
Defined.

Lemma filter_comm {A : Type} (P Q : A → Prop) `{!∀ x, Decision (P x)}
    `{!∀ x, Decision (Q x)} (l : list A) :
  filter P (filter Q l) = filter Q (filter P l).
Proof.
  rewrite !list_filter_filter. apply list_filter_iff. tauto.
Qed.

Lemma StronglySorted_filter {A : Type} (R : A → A → Prop) (P : A → Prop)
    `{!∀ x, Decision (P x)} (l : list A) :
  StronglySorted R l → StronglySorted R (filter P l).
Proof.
  induction 1 as [|x l Hs IH Hx]; [constructor|].
  rewrite filter_cons. case_decide; [|done]. constructor; [done|].
  apply Forall_forall. intros y [_ Hy]%list_elem_of_filter.
  by eapply Forall_forall in Hx.
Qed.

(** Filtering before or after the sort gives the same array. *)
Lemma sort_filter_comm {A : Type} (key : A → Z) (comparefn : A → A → Z)
    (P : A → Prop) `{!∀ x, Decision (P x)} (l : list A) :
  (∀ a b, comparefn a b ≤ 0 ↔ key a ≤ key b) →
  sort comparefn (filter P l) = filter P (sort comparefn l).
Proof.
  intros Hcmp. symmetry. apply (sort_unique key comparefn Hcmp).
  - by apply StronglySorted_filter, sort_sorted.
  - intros k. by rewrite filter_comm, (sort_stable key comparefn Hcmp), filter_comm.
Qed.

(** X23. [getHighPriorityPendingTasks] returns exactly the pending tasks of
    priority 4 or more, in descending order of priority; filtering the
    sorted pending tasks instead of sorting the filtered ones gives the same
    array. *)
Theorem getHighPriorityPendingTasks_spec (s : TaskState) :
  let r := Composition.getHighPriorityPendingTasks s in
  r = Composition.filterTasksByMinPriority 4 (sortByPriority (getPendingTasks s))
  ∧ (∀ t, t ∈ r ↔ t ∈ tasks s ∧ status t = Pending ∧ 4 ≤ priority t)
  ∧ r ≡ₚ filter (λ t, 4 ≤ priority t ∧ status t = Pending) (tasks s)
  ∧ StronglySorted (λ a b, priority b ≤ priority a) r.
Proof.
  intros r. subst r.
  unfold Composition.getHighPriorityPendingTasks, Composition.fpPipe,
    Composition.filterTasksByMinPriority.
  assert (sortByPriority (filter (λ task, 4 ≤ priority task) (getPendingTasks s))
          ≡ₚ filter (λ t, 4 ≤ priority t ∧ status t = Pending) (tasks s))
    as Hperm.
  { unfold sortByPriority. rewrite sort_Permutation.
    unfold getPendingTasks, getTasksByStatus. by rewrite list_filter_filter. }
  split_and!.
  - apply (sort_filter_comm (λ t, - priority t)). intros a b. lia.
  - intros t. rewrite Hperm, list_elem_of_filter. tauto.
  - done.
  - eapply (StronglySorted_Forall_impl _ _ (λ _, True));
      [|by apply Forall_true|apply sortByPriority_sorted].
    intros a b _ _. simpl. lia.
Qed.

(** ** Overdue tasks *)

Lemma isOverdue_no (t : Task) (w : World) :
  deadline t = None ∨ status t = Completed → isOverdue t w = (false, w).
Proof.
  intros H. unfold isOverdue. destruct (deadline t) as [d|]; [|done].
  destruct H as [|H]; [done|]. by rewrite decide_False by (by intros ?).
Qed.

Lemma isOverdue_reads (t : Task) (d : Date) (w : World) :
  deadline t = Some d → status t ≠ Completed →
  isOverdue t w = (bool_decide (d < wallClock w (clockReads w)), tick w).
Proof.
  intros Hd Hs. unfold isOverdue. rewrite Hd. by rewrite decide_True by done.
Qed.

Lemma filterA_cons {A : Type} (p : A → M bool) (x : A) (l : list A) (w : World) :
  filterA p (x :: l) w =
    let '(b, w1) := p x w in
    let '(ys, w2) := filterA p l w1 in (if b then x :: ys else ys, w2).
Proof. reflexivity. Qed.

Lemma overdueAt_not_completed (now : Date) (t : Task) :
  overdueAt now t → status t ≠ Completed ∧ deadline t ≠ None.
Proof.
  unfold overdueAt. destruct (deadline t); [|done]. by intros [? _].
Qed.

Lemma filterA_isOverdue_sound (l : list Task) (w : World) :
  let r := filterA isOverdue l w in
  wallClock r.2 = wallClock w
  ∧ clockReads r.2
    = (clockReads w
       + length (filter (λ t, deadline t ≠ None ∧ status t ≠ Completed) l))%nat
  ∧ r.1 `sublist_of` l
  ∧ Forall (λ t, ∃ n, (clockReads w ≤ n < clockReads r.2)%nat
                      ∧ overdueAt (wallClock w n) t) r.1.
Proof.
  revert w. induction l as [|x l IH]; intros w r; subst r.
  { simpl. split_and!; [done|by rewrite Nat.add_0_r|done|constructor]. }
  rewrite filterA_cons, filter_cons.
  destruct (decide (deadline x ≠ None ∧ status x ≠ Completed)) as [[Hd Hs]|Hno].
  - destruct (deadline x) as [d|] eqn:Hdx; [|done].
    rewrite (isOverdue_reads x d) by done. specialize (IH (tick w)).
    destruct (filterA isOverdue l (tick w)) as [ys w1]. simpl in *.
    destruct IH as (Hclock & Hreads & Hsub & Hall).
    assert (Forall (λ t, ∃ n, (clockReads w ≤ n < clockReads w1)%nat
                             ∧ overdueAt (wallClock w n) t) ys) as Hall'.
    { eapply Forall_impl; [exact Hall|]. simpl.
      intros t (n & Hn & Ht). exists n. split; [lia|done]. }
    split_and!; [done|lia| |].
    + case_bool_decide; [by apply sublist_skip|by apply sublist_cons].
    + case_bool_decide; [|done]. constructor; [|done].
      exists (clockReads w). split; [lia|].
      unfold overdueAt. by rewrite Hdx.
  - rewrite isOverdue_no.
    2:{ destruct (deadline x); [|by left]. right.
        destruct (decide (status x = Completed)); [done|].
        exfalso. by apply Hno. }
    specialize (IH w). destruct (filterA isOverdue l w) as [ys w1]. simpl in *.
    destruct IH as (Hclock & Hreads & Hsub & Hall).
    split_and!; [done|lia|by apply sublist_cons|done].
Qed.

(** X24. [getOverdueTasks] returns tasks of the state in their order, each
    of them not completed and with a deadline before one of the clock
    readings of the call; it reads the clock once for each task that has a
    deadline and is not completed, and not at all for the others. *)
Theorem getOverdueTasks_sound (s : TaskState) (w : World) :
  let r := getOverdueTasks s w in
  r.1 `sublist_of` tasks s
  ∧ Forall (λ t, status t ≠ Completed
                 ∧ ∃ d n, deadline t = Some d
                          ∧ (clockReads w ≤ n < clockReads r.2)%nat
                          ∧ d < wallClock w n) r.1
  ∧ clockReads r.2
    = (clockReads w
       + length (filter (λ t, deadline t ≠ None ∧ status t ≠ Completed)
                        (tasks s)))%nat.
Proof.
  intros r. subst r. unfold getOverdueTasks.
  destruct (filterA_isOverdue_sound (tasks s) w) as (_ & Hreads & Hsub & Hall).
  split_and!; [done| |done].
  eapply Forall_impl; [exact Hall|]. simpl. intros t (n & Hn & Ht).
  unfold overdueAt in Ht. destruct (deadline t) as [d|]; [|done].
  destruct Ht as [Hs Hd]. split; [done|]. by exists d, n.
Qed.

(** X25. When the clock stands still during the call, [getOverdueTasks]
    returns exactly the tasks that are not completed among those that
    [filterByDeadlineBefore] keeps for that time. *)
Theorem getOverdueTasks_still_clock_spec (s : TaskState) (w : World)
    (now : Date) :
  (∀ n, wallClock w (clockReads w + n) = now) →
  (getOverdueTasks s w).1
  = filter (λ t, status t ≠ Completed)
           (Composition.filterByDeadlineBefore now (tasks s)).
Proof.
  intros Hstill. unfold getOverdueTasks, Composition.filterByDeadlineBefore.
  rewrite (getOverdueTasks_still_clock _ _ now) by done.
  rewrite list_filter_filter. apply list_filter_iff. intros t.
  unfold overdueAt, Composition.deadlineBefore. destruct (deadline t); tauto.
Qed.

Lemma getOverdueTasks_still_clock_spec_witness :
  let s := {| tasks := [exampleTask "a" 3 Pending (Some 20);
                        exampleTask "b" 5 Completed (Some 20);
                        exampleTask "c" 5 InProgress (Some 40);
                        exampleTask "d" 1 Pending None] |} in
  let w := {| wallClock := λ _, 30; clockReads := 0;
              uuidSource := λ _, []; uuidDraws := 0 |} in
  (getOverdueTasks s w).1 = [exampleTask "a" 3 Pending (Some 20)]
  ∧ (getOverdueTasks s w).1
    = filter (λ t, status t ≠ Completed)
             (Composition.filterByDeadlineBefore 30 (tasks s)).
Proof.
  intros s w. split; [reflexivity|].
  apply (getOverdueTasks_still_clock_spec s w 30). reflexivity.
Defined.

(** X26. Completing clears the overdue flag: after [markCompleted] none of
    the overdue tasks has the identifier, and after [markMultipleCompleted]
    none has an identifier of the batch, whenever the query is made. *)
Theorem completing_clears_overdue (s : TaskState) (w w2 : World) :
  (∀ taskId,
     Forall (λ t, id t ≠ taskId)
            (getOverdueTasks (markCompleted s taskId w).1 w2).1)
  ∧ (∀ taskIds,
       Forall (λ t, id t ∉ taskIds)
              (getOverdueTasks (markMultipleCompleted s taskIds w).1 w2).1).
Proof.
  assert (∀ (P : Task → Prop) s1,
            Forall (λ t, P t → status t = Completed) (tasks s1) →
            Forall (λ t, ¬ P t) (getOverdueTasks s1 w2).1) as Hkey.
  { intros P s1 Hs1. unfold getOverdueTasks.
    destruct (filterA_isOverdue_sound (tasks s1) w2) as (_ & _ & Hsub & Hall).
    apply Forall_forall. intros t Ht HP.
    eapply Forall_forall in Hall; [|exact Ht]. destruct Hall as (n & _ & Hod).
    apply overdueAt_not_completed in Hod as [Hst _]. apply Hst.
    eapply Forall_forall in Hs1; [by apply Hs1|].
    by eapply sublist_subseteq. }
  split.
  - intros taskId. apply (Hkey (λ t, id t = taskId)).
    unfold markCompleted, updateTaskStatus. run.
    pose proof (mapA_setStatus_completed taskId (tasks s) w) as (_ & _ & H2).
    destruct (mapA (setStatus taskId Completed) (tasks s) w) as [ys w1].
    simpl in *. induction H2 as [|t t' l k Htt' _ IH]; constructor; [|done].
    case_decide; [by destruct Htt' as (n & _ & ->)|by subst t'].
  - intros taskIds.
    apply (Forall_impl (λ t, ¬ id t ∈ taskIds)); [|done].
    apply (Hkey (λ t, id t ∈ taskIds)).
    unfold markMultipleCompleted. run.
    apply (Forall_map_impl (λ _, True)); [|by apply Forall_true].
    intros t _. case_decide as Hc; [done|]. intros Hin.
    destruct (decide (status t = Completed)); [done|].
    exfalso. apply Hc. split; [by apply elem_of_list_to_set|done].
Qed.

(** ** updateTask, when it succeeds *)

(** X27. A patch that supplies nothing, for an identifier that a task has,
    succeeds with the state it was given. *)
Theorem updateTask_empty_patch (s : TaskState) (taskId : JS.string) :
  (∃ t, t ∈ tasks s ∧ id t = taskId) →
  updateTask s taskId emptyPatch = Ok s.
Proof.
  intros (t & Hin & Hid). unfold updateTask. integers.
  destruct (existsb _ (tasks s)) eqn:Hex; simpl.
  2:{ apply existsb_id_false in Hex. by eapply Forall_forall in Hex. }
  f_equal. destruct s as [l]. simpl. f_equal.
  rewrite <-(map_id l) at 2. apply map_ext. intros x.
  case_decide; [by destruct x|done].
Qed.

Lemma updateTask_empty_patch_witness :
  updateTask {| tasks := [exampleTask "a" 3 Completed (Some 7);
                          exampleTask "b" 2 Pending None] |}
    (JS.lit "a") emptyPatch
  = Ok {| tasks := [exampleTask "a" 3 Completed (Some 7);
                    exampleTask "b" 2 Pending None] |}.
Proof.
  apply (updateTask_empty_patch
           {| tasks := [exampleTask "a" 3 Completed (Some 7);
                        exampleTask "b" 2 Pending None] |} (JS.lit "a")).
  exists (exampleTask "a" 3 Completed (Some 7)). split; [left|reflexivity].
Defined.

(** X28. When a task has the identifier and the priority, if supplied, is
    within 1..5, [updateTask] succeeds. Position by position, a task with
    the identifier takes each supplied title, description, priority and
    deadline date, keeps each of these that the patch leaves out, and keeps
    its identifier, status, creation time and completion timestamp; the
    other tasks are returned as they are. *)
Theorem updateTask_supplied_fields (s : TaskState) (taskId : JS.string)
    (taskUpdate : TaskUpdate.t) :
  (∃ t, t ∈ tasks s ∧ id t = taskId) →
  (∀ p, TaskUpdate.priority taskUpdate = Some p → 1 ≤ p ≤ 5) →
  ∃ s', updateTask s taskId taskUpdate = Ok s'
    ∧ Forall2 (λ t t',
        if decide (id t = taskId) then
          id t' = id t ∧ status t' = status t
          ∧ createdAt t' = createdAt t ∧ completedAt t' = completedAt t
          ∧ title t' = default (title t) (TaskUpdate.title taskUpdate)
          ∧ description t'
            = default (description t) (TaskUpdate.description taskUpdate)
          ∧ priority t' = default (priority t) (TaskUpdate.priority taskUpdate)
          ∧ (∀ d, TaskUpdate.deadline taskUpdate = Some (NotNull d) →
                  deadline t' = Some d)
          ∧ (TaskUpdate.deadline taskUpdate = None → deadline t' = deadline t)
        else t' = t) (tasks s) (tasks s').
Proof.
  intros Hex Hprio.
  destruct (updateTask_success s taskId taskUpdate Hex Hprio) as (s' & Hok & H2).
  exists s'. split; [done|].
  eapply Forall2_impl; [exact H2|]. intros t t'. simpl.
  case_decide; [|done].
  intros (? & ? & ? & ? & ? & ? & ? & Hd). split_and!; try done.
  - intros d Hu. by rewrite Hu in Hd.
  - intros Hu. by rewrite Hu in Hd.
Qed.

Lemma updateTask_supplied_fields_witness :
  let s := {| tasks := [exampleTask "a" 3 Completed (Some 7);
                        exampleTask "b" 2 Pending None] |} in
  let taskUpdate :=
    {| TaskUpdate.title := Some []; TaskUpdate.description := None;
       TaskUpdate.priority := Some 5;
       TaskUpdate.deadline := Some (NotNull 90) |} in
  ∃ s', updateTask s (JS.lit "a") taskUpdate = Ok s'
    ∧ Forall2 (λ t t',
        if decide (id t = JS.lit "a") then
          id t' = id t ∧ status t' = status t
          ∧ createdAt t' = createdAt t ∧ completedAt t' = completedAt t
          ∧ title t' = default (title t) (TaskUpdate.title taskUpdate)
          ∧ description t'
            = default (description t) (TaskUpdate.description taskUpdate)
          ∧ priority t' = default (priority t) (TaskUpdate.priority taskUpdate)
          ∧ (∀ d, TaskUpdate.deadline taskUpdate = Some (NotNull d) →
                  deadline t' = Some d)
          ∧ (TaskUpdate.deadline taskUpdate = None → deadline t' = deadline t)
        else t' = t) (tasks s) (tasks s').
Proof.
  intros s taskUpdate. apply (updateTask_supplied_fields s (JS.lit "a") taskUpdate).
  - exists (exampleTask "a" 3 Completed (Some 7)). split; [left|reflexivity].
  - intros p [= <-]. lia.
Defined.

(** ** The status views *)

(** X29. The three status views split the state: each view holds tasks of
    its status only, in the state's order, and together they hold every
    task exactly once. *)
Theorem status_views_partition (s : TaskState) :
  getPendingTasks s ++ getInProgressTasks s ++ getCompletedTasks s ≡ₚ tasks s
  ∧ (∀ st, getTasksByStatus s st `sublist_of` tasks s
           ∧ Forall (λ t, status t = st) (getTasksByStatus s st)).
Proof.
  split.
  - unfold getPendingTasks, getInProgressTasks, getCompletedTasks,
      getTasksByStatus.
    induction (tasks s) as [|x l IH]; [done|]. rewrite !filter_cons.
    destruct (status x) eqn:Hx; repeat case_decide; try done; simpl.
    + by rewrite IH.
    + by rewrite <-Permutation_middle, IH.
    + rewrite app_assoc, <-Permutation_middle, <-app_assoc. by rewrite IH.
  - intros st. unfold getTasksByStatus. split; [apply sublist_filter|].
    apply Forall_forall. by intros t [? _]%list_elem_of_filter.
Qed.

(** * JavaScript numbers at the guards *)

(** ** Embedding of the integers

    The operations on integer priorities are the operations on [JS.number]
    at the integers: what is proved of the first is true of the second for
    every input that is an integer. *)

Lemma createTask_Int (ttl descr : JS.string) (z : Z) (dl : option Date)
    (w : World) :
  createTask ttl descr (JS.Int z) dl w
  = (mapCompletion embedTask (createTask ttl descr z dl w).1,
     (createTask ttl descr z dl w).2).
Proof.
  unfold createTask. cbn [lessThan greaterThan literal Z_priority number_priority].
  unfold JS.lt, JS.gt.
  destruct ((z <? 1) || (z >? 5)); [done|].
  by destruct (negb (JS.truthy (JS.trim ttl))).
Qed.

Lemma addTask_Int (s : TaskState) (ttl descr : JS.string) (z : Z)
    (dl : option Date) (w : World) :
  addTask (embedState s) ttl descr (JS.Int z) dl w
  = (mapCompletion embedState (addTask s ttl descr z dl w).1,
     (addTask s ttl descr z dl w).2).
Proof.
  unfold addTask. run. rewrite createTask_Int.
  destruct (createTask ttl descr z dl w) as [[t|e] w1]; simpl; [|done].
  unfold embedState. simpl. by rewrite map_app.
Qed.

Lemma existsb_id_embed (taskId : JS.string) (l : list Task) :
  existsb (λ t, bool_decide (id t = taskId)) (map embedTask l)
  = existsb (λ t, bool_decide (id t = taskId)) l.
Proof. induction l as [|x l IH]; simpl; [done|]. by rewrite IH. Qed.

Lemma updateTask_Int (s : TaskState) (taskId : JS.string)
    (taskUpdate : TaskUpdate.t) :
  updateTask (embedState s) taskId (embedPatch taskUpdate)
  = mapResult embedState (updateTask s taskId taskUpdate).
Proof.
  unfold updateTask. simpl. rewrite existsb_id_embed.
  destruct (existsb _ (tasks s)); simpl; [|done].
  cbn [lessThan greaterThan literal Z_priority number_priority].
  destruct (TaskUpdate.priority taskUpdate) as [p|] eqn:Hp; simpl.
  - unfold JS.lt, JS.gt. destruct ((p <? 1) || (p >? 5)); [done|]. simpl.
    unfold embedState. simpl. do 2 f_equal. rewrite !map_map.
    apply map_ext. intros t. simpl. by case_decide.
  - unfold embedState. simpl. do 2 f_equal. rewrite !map_map.
    apply map_ext. intros t. simpl. by case_decide.
Qed.

Lemma updatePriorities_Int (s : TaskState) (taskIds : list JS.string) (z : Z) :
  updatePriorities (embedState s) taskIds (JS.Int z)
  = mapResult embedState (updatePriorities s taskIds z).
Proof.
  unfold updatePriorities.
  cbn [lessThan greaterThan literal Z_priority number_priority].
  unfold JS.lt, JS.gt. destruct ((z <? 1) || (z >? 5)); [done|]. simpl.
  unfold embedState. simpl. do 2 f_equal. rewrite !map_map.
  apply map_ext. intros t. simpl. by case_decide.
Qed.

(** ** What the guards let through *)

(** [addTask] on numbers: it throws exactly when the priority is a number
    below 1 or above 5 or the title is blank; NaN is let through. *)
Lemma addTask_number_throws (s : TaskStateOf JS.number) (ttl descr : JS.string)
    (prio : JS.number) (dl : option Date) (w : World) :
  (∃ e, (addTask s ttl descr prio dl w).1 = Throw e)
  ↔ refusedPriority prio ∨ JS.trim ttl = [].
Proof.
  unfold addTask, createTask.
  destruct (lessThan prio (literal 1) || greaterThan prio (literal 5))
    eqn:Hrange.
  - run. split; [intros _; left|by eexists].
    destruct prio as [z|]; [|done]. exists z. split; [done|].
    cbn in Hrange. lia.
  - assert (¬ refusedPriority prio) as Href.
    { intros (z & -> & Hz). cbn in Hrange. lia. }
    destruct (JS.trim ttl) eqn:Ht; run.
    + split; [by right|by eexists].
    + split; [by intros [? ?]|by intros [?|?]].
Qed.

(** [updateTask] on numbers: it fails exactly when no task has the
    identifier or the priority supplied is a number below 1 or above 5; a
    NaN priority is let through. *)
Lemma updateTask_number_fails (s : TaskStateOf JS.number) (taskId : JS.string)
    (taskUpdate : TaskUpdate.tOf JS.number) :
  (∃ e, updateTask s taskId taskUpdate = Failure e)
  ↔ Forall (λ t, id t ≠ taskId) (tasks s)
    ∨ ∃ p, TaskUpdate.priority taskUpdate = Some p ∧ refusedPriority p.
Proof.
  unfold updateTask.
  assert (existsb (λ t, bool_decide (id t = taskId)) (tasks s) = false
          ↔ Forall (λ t, id t ≠ taskId) (tasks s)) as Hex.
  { induction (tasks s) as [|x l IH]; simpl; [done|].
    rewrite orb_false_iff, IH, Forall_cons, bool_decide_eq_false. done. }
  destruct (existsb _ (tasks s)) eqn:Hfound; cbn [negb].
  2:{ split; [intros _; left; by apply Hex|by eexists]. }
  assert (¬ Forall (λ t, id t ≠ taskId) (tasks s)) as Hnot
    by (intros Hn%Hex; done).
  destruct (TaskUpdate.priority taskUpdate) as [p|] eqn:Hp.
  - destruct (lessThan p (literal 1) || greaterThan p (literal 5)) eqn:Hrange.
    + split; [intros _; right|by eexists]. exists p. split; [done|].
      destruct p as [z|]; [|done]. exists z. split; [done|].
      cbn in Hrange. lia.
    + split; [by intros [? ?]|]. intros [?|(p' & [= <-] & z & -> & Hz)]; [done|].
      cbn in Hrange. lia.
  - split; [by intros [? ?]|]. by intros [?|(p' & ? & _)].
Qed.

(** C6. The code at the failing input: [addTask] with title "x" and
    priority NaN on the initial state. Neither [NaN < 1] nor [NaN > 5]
    holds, so nothing is thrown: the call returns a state whose one task
    has priority NaN, which is no number from 1 to 5. *)
Theorem addTask_NaN_accepted :
  (addTask createInitialState (JS.lit "x") [] JS.NaN None exampleWorld).1
  = Normal {| tasks := [{| id := JS.lit "u0"; title := JS.lit "x";
                           description := []; priority := JS.NaN;
                           status := Pending; createdAt := 1000;
                           deadline := None; completedAt := None |}] |}.
Proof. reflexivity. Qed.

(** C4. The code at the failing input: [updateTask] with the patch
    [{priority: NaN}] for a task that exists. The task is found and neither
    [NaN < 1] nor [NaN > 5] holds, so the call succeeds, and the task comes
    back with priority NaN. *)
Theorem updateTask_NaN_accepted :
  let t0 := {| id := JS.lit "a"; title := JS.lit "pay rent";
               description := []; priority := JS.Int 3; status := Pending;
               createdAt := 10; deadline := None; completedAt := None |} in
  updateTask {| tasks := [t0] |} (JS.lit "a")
    {| TaskUpdate.title := None; TaskUpdate.description := None;
       TaskUpdate.priority := Some JS.NaN; TaskUpdate.deadline := None |}
  = Ok {| tasks := [withPriority t0 JS.NaN] |}.
Proof. reflexivity. Qed.
